(** * util.py: beat estimation, evaluation and aggregation helpers

    A shallow embedding of [src/util.py].  The module is notebook glue around
    mirdata, librosa, mir_eval and numpy: it reshapes dictionaries, builds
    arrays and calls library functions.

    Modelling choices.
    - Python dictionaries keep insertion order, and the aggregation code relies
      on it, so a dictionary is an association list with in-place update.
    - The dictionaries and lists that the code creates and mutates live in a
      store of objects; arguments are references into that store, so that
      "the call leaves its arguments alone" is a statement one can prove.
    - A float is the rational it denotes, or one of the IEEE special values
      numpy produces on a division by zero.  Rounding is not modelled.
    - The product of an integer array and a Python integer is an int64
      product: it wraps around, and an integer that is not an int64 is
      refused with OverflowError.
    - Python exceptions are an error result threaded through every call. *)

From Stdlib Require Import ZArith QArith Lia.
From stdpp Require Import base list strings.

Local Open Scope Z_scope.
Local Open Scope nat_scope.
Local Open Scope string_scope.
Local Open Scope list_scope.

(** ** Numbers *)

(** numpy's float64, idealised: finite values are exact rationals. *)
Inductive float64 : Type :=
| Finite (q : Q)
| PosInf
| NegInf
| NotANumber.

(** [a / b] on integers as numpy computes it (true division): a division by
    zero is not an exception, it gives an infinity or NaN. *)
Definition true_divide (a b : Z) : float64 :=
  if (b =? 0)%Z then
    if (a =? 0)%Z then NotANumber
    else if (0 <? a)%Z then PosInf else NegInf
  else Finite (inject_Z a / inject_Z b).

(** IEEE comparisons: NaN compares false with everything. *)
Definition f64_lt (x y : float64) : Prop :=
  match x, y with
  | Finite p, Finite q => (p < q)%Q
  | NegInf, Finite _ | NegInf, PosInf | Finite _, PosInf => True
  | _, _ => False
  end.


Definition f64_eq (x y : float64) : Prop :=
  match x, y with
  | Finite p, Finite q => (p == q)%Q
  | NegInf, NegInf | PosInf, PosInf => True
  | _, _ => False
  end.

(** ** Dictionaries: insertion-ordered association lists *)

Abbreviation dict V := (list (string * V)).

Fixpoint dict_get {V} (d : dict V) (k : string) : option V :=
  match d with
  | [] => None
  | (k', v) :: d' => if String.eqb k' k then Some v else dict_get d' k
  end.

(** [d[k] = v]: an existing key keeps its position, a new key goes last. *)
Fixpoint dict_set {V} (d : dict V) (k : string) (v : V) : dict V :=
  match d with
  | [] => [(k, v)]
  | (k', v') :: d' =>
      if String.eqb k' k then (k', v) :: d' else (k', v') :: dict_set d' k v
  end.

Definition dict_keys {V} (d : dict V) : list string := map fst d.

(** The key uniqueness every Python dictionary has. *)
Definition dict_wf {V} (d : dict V) : Prop := NoDup (dict_keys d).

(** ** mirdata tracks *)

Record BeatData : Type := { times : list float64 }.

Module Track.
Record t : Type := { beats : BeatData; genre : string; tempo : float64 }.
End Track.

(** ** The object store *)

Definition loc : Type := nat.

Inductive obj : Type :=
| DictFloat (d : dict float64)            (* track_id -> score *)
| DictTrack (d : dict Track.t)            (* track_id -> Track *)
| DictArray (d : dict (list float64))     (* track_id -> array of beat times *)
| DictDict (d : dict loc)                 (* genre -> dictionary object *)
| ListStr (l : list string)
| ListFloat (l : list float64).

Definition heap : Type := list obj.

Inductive exn : Type :=
| KeyError (k : string)
| TypeError
| OverflowError
| External (what : string).

Inductive result (A : Type) : Type :=
| Ok (a : A)
| Raise (e : exn).
Arguments Ok {A} a.
Arguments Raise {A} e.

(** Statements run on the store and either return or raise. *)
Definition M (A : Type) : Type := heap -> result A * heap.

Definition ret {A} (a : A) : M A := fun h => (Ok a, h).

Definition raise {A} (e : exn) : M A := fun h => (Raise e, h).

Definition bind {A B} (m : M A) (f : A -> M B) : M B :=
  fun h =>
    match m h with
    | (Ok a, h') => f a h'
    | (Raise e, h') => (Raise e, h')
    end.

Notation "x <- m ;; k" := (bind m (fun x => k))
  (at level 100, m at next level, right associativity).
Notation "m ;; k" := (bind m (fun _ => k))
  (at level 100, right associativity).

Definition lift {A} (r : result A) : M A := fun h => (r, h).

(** [for x in xs: body(x)].  The loops of util.py never mutate the container
    they iterate over, so iterating over a snapshot is exact. *)
Fixpoint for_each {A} (xs : list A) (body : A -> M unit) : M unit :=
  match xs with
  | [] => ret tt
  | x :: xs' => body x ;; for_each xs' body
  end.

(** Kinds of object a reference can be read as. *)
Class Boxed (A : Type) : Type := {
  box : A -> obj;
  unbox : obj -> option A;
  unbox_box : forall a, unbox (box a) = Some a;
  box_unbox : forall o a, unbox o = Some a -> o = box a
}.

#[export] Instance boxed_dict_float : Boxed (dict float64).
Proof.
  refine {| box := DictFloat; unbox o := match o with DictFloat d => Some d | _ => None end |};
    [ done | by intros [] a [= ->] ].
Defined.

#[export] Instance boxed_dict_track : Boxed (dict Track.t).
Proof.
  refine {| box := DictTrack; unbox o := match o with DictTrack d => Some d | _ => None end |};
    [ done | by intros [] a [= ->] ].
Defined.

#[export] Instance boxed_dict_array : Boxed (dict (list float64)).
Proof.
  refine {| box := DictArray; unbox o := match o with DictArray d => Some d | _ => None end |};
    [ done | by intros [] a [= ->] ].
Defined.

#[export] Instance boxed_dict_dict : Boxed (dict loc).
Proof.
  refine {| box := DictDict; unbox o := match o with DictDict d => Some d | _ => None end |};
    [ done | by intros [] a [= ->] ].
Defined.

#[export] Instance boxed_list_str : Boxed (list string).
Proof.
  refine {| box := ListStr; unbox o := match o with ListStr d => Some d | _ => None end |};
    [ done | by intros [] a [= ->] ].
Defined.

#[export] Instance boxed_list_float : Boxed (list float64).
Proof.
  refine {| box := ListFloat; unbox o := match o with ListFloat d => Some d | _ => None end |};
    [ done | by intros [] a [= ->] ].
Defined.

(** A fresh object; its reference is the next free slot. *)
Definition new {A} `{Boxed A} (a : A) : M loc :=
  fun h => (Ok (length h), h ++ [box a]).

Definition read {A} `{Boxed A} (l : loc) : M A :=
  fun h =>
    match h !! l ≫= unbox with
    | Some a => (Ok a, h)
    | None => (Raise TypeError, h)
    end.

Definition write {A} `{Boxed A} (l : loc) (a : A) : M unit :=
  fun h => (Ok tt, <[l := box a]> h).

(** *** Python's container operations *)

(** [{}] *)
Definition new_dict (V : Type) `{Boxed (dict V)} : M loc := new (@nil (string * V)).

(** [[]] *)
Definition new_list (A : Type) `{Boxed (list A)} : M loc := new (@nil A).

(** [d[k]]: a missing key raises KeyError. *)
Definition getitem {V} `{Boxed (dict V)} (d : loc) (k : string) : M V :=
  m <- read d ;;
  match dict_get m k with
  | Some v => ret v
  | None => raise (KeyError k)
  end.

(** [d[k] = v] *)
Definition setitem {V} `{Boxed (dict V)} (d : loc) (k : string) (v : V) : M unit :=
  m <- read d ;; write d (dict_set m k v).

(** The keys [for k in d] visits. *)
Definition keys (V : Type) `{Boxed (dict V)} (d : loc) : M (list string) :=
  m <- read d ;; ret (dict_keys m).

(** [l.append(a)] *)
Definition append {A} `{Boxed (list A)} (l : loc) (a : A) : M unit :=
  xs <- read l ;; write l (xs ++ [a]).

(** The elements [for x in l] visits. *)
Definition items (A : Type) `{Boxed (list A)} (l : loc) : M (list A) := read l.

(** [s not in l] for a list of strings. *)
Definition not_in (s : string) (l : loc) : M bool :=
  xs <- read l ;; ret (negb (existsb (String.eqb s) xs)).

(** [np.array(l)] for a list of floats: a new array with the same elements. *)
Definition np_array (l : loc) : M (list float64) := read l.

(** *** numpy array arithmetic *)

(** [np.arange(n)] *)
Definition np_arange (n : nat) : list Z := map Z.of_nat (seq 0 n).

(** The range of numpy's int64. *)
Definition in_int64 (z : Z) : bool := ((- 2 ^ 63 <=? z) && (z <? 2 ^ 63))%Z.

(** int64 arithmetic wraps around silently. *)
Definition wrap64 (z : Z) : Z := ((z + 2 ^ 63) mod 2 ^ 64 - 2 ^ 63)%Z.

(** [a * k] for an int64 array and a Python integer: the integer is taken as
    an int64, which raises OverflowError when it does not fit, and the
    products wrap around in int64. *)
Definition np_multiply (a : list Z) (k : Z) : result (list Z) :=
  if in_int64 k then Ok (map (fun x => wrap64 (x * k)) a)
  else Raise OverflowError.

(** [a / k] for an integer array and an integer: always a float array. *)
Definition np_true_divide (a : list Z) (k : Z) : list float64 :=
  map (fun x => true_divide x k) a.

(** Modelled from the spec: [np.where(mask)[0]] is numpy's; the source keeps
    "indices (in frames) of only true values" and the spec calls them sorted
    frame indices: the positions of the true entries, in increasing order. *)
Fixpoint np_where_from (i : nat) (mask : list bool) : list Z :=
  match mask with
  | [] => []
  | b :: mask' =>
      if b then Z.of_nat i :: np_where_from (S i) mask'
      else np_where_from (S i) mask'
  end.

Definition np_where (mask : list bool) : list Z := np_where_from 0 mask.

(** Modelled from the spec: [librosa.frames_to_time] is librosa's, not this
    repository's; the spec gives [time = frame_index * hop_length / sample_rate]. *)
Definition frames_to_time (frames : list Z) (sr hop_length : Z) : list float64 :=
  np_true_divide (map (fun frame_index => (frame_index * hop_length)%Z) frames) sr.

(** ** The functions of util.py *)

Section LoadData.
(** [mirdata.initialize(dataset_name, data_home, version)], external. *)
Context {Dataset : Type}.
Variable mirdata_initialize : string -> string -> string -> result Dataset.

(** [dataset_version] defaults to ['mini']. *)
Definition load_data (dataset_name data_home : string)
    (dataset_version : option string) : M Dataset :=
  let dataset_version := default "mini" dataset_version in
  dataset <- lift (mirdata_initialize "gtzan_genre" data_home dataset_version) ;;
  ret dataset.
End LoadData.

Section EstimateBeats.
(** librosa's audio decoding and onset/tempo analysis, external.
    [librosa_load path] is [librosa.load(path, sr=None)]: samples and the
    file's own sampling rate. *)
Variable librosa_load : string -> result (list float64 * Z).
Variable onset_strength : list float64 -> Z -> Z -> result (list float64).
Variable plp : list float64 -> Z -> Z -> list float64 -> result (list float64).
Variable localmax : list float64 -> list bool.

(** [hop_length] defaults to 512. *)
Definition estimate_beats_spectral_flux (audio_path : string)
    (hop_length : option Z) : M (list float64 * list float64) :=
  let hop_length := default 512%Z hop_length in
  loaded <- lift (librosa_load audio_path) ;;
  let '(y, sr) := loaded in
  activation <- lift (onset_strength y sr hop_length) ;;
  plp <- lift (plp y sr hop_length activation) ;;
  let beat_plp := localmax plp in
  let beat_plp := np_where beat_plp in
  let beat_times := frames_to_time beat_plp sr hop_length in
  ret (beat_times, activation).
End EstimateBeats.

Section Evaluate.
(** [mir_eval.beat.f_measure(reference_beats, estimated_beats)], external. *)
Variable f_measure : list float64 -> list float64 -> result float64.

Definition evaluate_estimated_beats (data estimated_beats : loc) : M loc :=
  diction <- new_dict float64 ;;
  track_ids <- keys Track.t data ;;
  for_each track_ids (fun track_id =>
    track <- getitem (V := Track.t) data track_id ;;
    estimated <- getitem (V := list float64) estimated_beats track_id ;;
    score <- lift (f_measure (times (Track.beats track)) estimated) ;;
    setitem diction track_id score) ;;
  ret diction.
End Evaluate.

Definition split_by_genre (scores_dictionary tracks_dictionary : loc) : M loc :=
  genre_scores <- new_dict loc ;;
  genres <- new_list string ;;
  track_ids <- keys Track.t tracks_dictionary ;;
  for_each track_ids (fun track_id =>
    track <- getitem (V := Track.t) tracks_dictionary track_id ;;
    unseen <- not_in (Track.genre track) genres ;;
    if unseen : bool then
      track <- getitem (V := Track.t) tracks_dictionary track_id ;;
      append genres (Track.genre track)
    else ret tt) ;;
  genre_list <- items string genres ;;
  for_each genre_list (fun genre =>
    genre_tracks <- new_dict float64 ;;
    track_ids <- keys float64 scores_dictionary ;;
    for_each track_ids (fun track_id =>
      track <- getitem (V := Track.t) tracks_dictionary track_id ;;
      if String.eqb genre (Track.genre track) then
        score <- getitem (V := float64) scores_dictionary track_id ;;
        setitem genre_tracks track_id score
      else ret tt) ;;
    setitem genre_scores genre genre_tracks) ;;
  ret genre_scores.

Definition get_tempo_vs_performance (scores_dictionary tracks_dictionary : loc)
    : M (list float64 * list float64) :=
  tempo <- new_list float64 ;;
  scores <- new_list float64 ;;
  track_ids <- keys float64 scores_dictionary ;;
  for_each track_ids (fun track_id =>
    track <- getitem (V := Track.t) tracks_dictionary track_id ;;
    let tempo_value := Track.tempo track in
    score_value <- getitem (V := float64) scores_dictionary track_id ;;
    append tempo tempo_value ;;
    append scores score_value) ;;
  tempo <- np_array tempo ;;
  scores <- np_array scores ;;
  ret (tempo, scores).

(** [hop_size] defaults to 512 and [sr] to 22050. *)
Definition compute_time_sf (novelty_sf : list float64) (hop_size sr : option Z)
    : M (list float64) :=
  let hop_size := default 512%Z hop_size in
  let sr := default 22050%Z sr in
  let number_frames := length novelty_sf in
  scaled <- lift (np_multiply (np_arange number_frames) hop_size) ;;
  let time_sf := np_true_divide scaled sr in
  ret time_sf.

(** [sr_ml] defaults to 100. *)
Definition compute_time_ml (novelty_ml : list float64) (sr_ml : option Z)
    : M (list float64) :=
  let sr_ml := default 100%Z sr_ml in
  let time_ml := np_true_divide (np_arange (length novelty_ml)) sr_ml in
  ret time_ml.

(** The body is [pass]. *)
Definition sonify_track_data (track_id : string)
    (estimated_beats tracks_dictionary : loc) : M unit :=
  ret tt.

(** ** What the loops compute

    Each loop of util.py folds a step over the visited keys; the step either
    gives the next value of the object under construction or raises. *)

Fixpoint foldM {A S} (f : S -> A -> result S) (xs : list A) (s : S) : result S :=
  match xs with
  | [] => Ok s
  | x :: xs' =>
      match f s x with
      | Ok s' => foldM f xs' s'
      | Raise e => Raise e
      end
  end.

(** First loop of [split_by_genre]: one more track looked at. *)
Definition genres_step (td : dict Track.t) (genres : list string)
    (track_id : string) : result (list string) :=
  match dict_get td track_id with
  | None => Raise (KeyError track_id)
  | Some track =>
      if negb (existsb (String.eqb (Track.genre track)) genres)
      then Ok (genres ++ [Track.genre track])
      else Ok genres
  end.

(** Inner loop of [split_by_genre]: one more score looked at. *)
Definition genre_tracks_step (sd : dict float64) (td : dict Track.t)
    (genre : string) (genre_tracks : dict float64) (track_id : string)
    : result (dict float64) :=
  match dict_get td track_id with
  | None => Raise (KeyError track_id)
  | Some track =>
      if String.eqb genre (Track.genre track) then
        match dict_get sd track_id with
        | None => Raise (KeyError track_id)
        | Some score => Ok (dict_set genre_tracks track_id score)
        end
      else Ok genre_tracks
  end.

(** Outer loop of [split_by_genre]: one more genre filled in. *)
Definition genre_scores_step (sd : dict float64) (td : dict Track.t)
    (genre_scores : dict (dict float64)) (genre : string)
    : result (dict (dict float64)) :=
  match foldM (genre_tracks_step sd td genre) (dict_keys sd) [] with
  | Ok genre_tracks => Ok (dict_set genre_scores genre genre_tracks)
  | Raise e => Raise e
  end.

(** The value [split_by_genre] builds from the contents of its arguments. *)
Definition split_by_genre_value (sd : dict float64) (td : dict Track.t)
    : result (dict (dict float64)) :=
  match foldM (genres_step td) (dict_keys td) [] with
  | Ok genres => foldM (genre_scores_step sd td) genres []
  | Raise e => Raise e
  end.

(** Loop of [get_tempo_vs_performance]. *)
Definition tempo_step (sd : dict float64) (td : dict Track.t)
    (acc : list float64 * list float64) (track_id : string)
    : result (list float64 * list float64) :=
  match dict_get td track_id with
  | None => Raise (KeyError track_id)
  | Some track =>
      match dict_get sd track_id with
      | None => Raise (KeyError track_id)
      | Some score => Ok (acc.1 ++ [Track.tempo track], acc.2 ++ [score])
      end
  end.

Definition get_tempo_vs_performance_value (sd : dict float64) (td : dict Track.t)
    : result (list float64 * list float64) :=
  foldM (tempo_step sd td) (dict_keys sd) ([], []).

(** Loop of [evaluate_estimated_beats]. *)
Definition evaluate_step (f_measure : list float64 -> list float64 -> result float64)
    (td : dict Track.t) (ed : dict (list float64))
    (diction : dict float64) (track_id : string) : result (dict float64) :=
  match dict_get td track_id with
  | None => Raise (KeyError track_id)
  | Some track =>
      match dict_get ed track_id with
      | None => Raise (KeyError track_id)
      | Some estimated =>
          match f_measure (times (Track.beats track)) estimated with
          | Ok score => Ok (dict_set diction track_id score)
          | Raise e => Raise e
          end
      end
  end.

(** ** Reading results back from the store *)

(** The reference [r] is a genre dictionary whose entries point at the
    score dictionaries listed in [v]. *)
Definition genre_scores_at (h : heap) (r : loc) (v : dict (dict float64)) : Prop :=
  exists d : dict loc,
    h !! r = Some (DictDict d) /\
    Forall2 (fun e1 e2 => e1.1 = e2.1 /\ h !! e1.2 = Some (DictFloat e2.2)) d v.

(** Duplicates dropped, first occurrences kept in order. *)
Fixpoint first_seen (l : list string) : list string :=
  match l with
  | [] => []
  | x :: l' => x :: filter (fun y => y <> x) (first_seen l')
  end.

(** The genre of a track identifier, if it is a key of the tracks dictionary. *)
Definition genre_of (td : dict Track.t) (track_id : string) : option string :=
  Track.genre <$> dict_get td track_id.

(** The scores of the tracks of one genre, in the order of the scores dictionary. *)
Definition scores_of_genre (sd : dict float64) (td : dict Track.t) (g : string)
    : dict float64 :=
  filter (fun e => genre_of td e.1 = Some g) sd.

(** A list of floats is strictly increasing. *)
Definition increasing (l : list float64) : Prop :=
  forall i j x y, i < j -> l !! i = Some x -> l !! j = Some y -> f64_lt x y.


(** ** Two calls in a row

    [m] is run, then run again on the store the first call left.  The call is
    repeatable when the first run changed no object that was there before it
    and both runs end the same way: the same exception, or results that read
    back from the store as the same value. *)
Definition repeatable {A V} (denote : heap -> A -> V -> Prop) (m : M A) (h : heap)
    : Prop :=
  let r1 := m h in
  let r2 := m r1.2 in
  h `prefix_of` r1.2 /\
  match r1.1, r2.1 with
  | Ok a1, Ok a2 => exists v, denote r1.2 a1 v /\ denote r2.2 a2 v
  | Raise e1, Raise e2 => e1 = e2
  | _, _ => False
  end.

(** Results that are plain values denote themselves. *)
Definition by_value {A} (_ : heap) (a v : A) : Prop := a = v.

(** Where the score dictionaries of the genres live: after the genre
    dictionary and the genres list, in allocation order. *)
Definition slot (h : heap) (subs : list (dict float64)) (l : loc)
    (m : dict float64) : Prop :=
  exists i, l = length h + (2 + i) /\ subs !! i = Some m.

(** A track the loop of [evaluate_estimated_beats] gets through: its estimate
    is there and the metric returns a score for it. *)
Definition scored (f_measure : list float64 -> list float64 -> result float64)
    (ed : dict (list float64)) (e : string * Track.t) (x : string * float64) : Prop :=
  x.1 = e.1 /\
  exists estimated,
    dict_get ed e.1 = Some estimated /\
    f_measure (times (Track.beats e.2)) estimated = Ok x.2.

(** ** Example data *)

Definition a_track (genre : string) (tempo : Z) : Track.t :=
  {| Track.beats := {| times := [] |};
     Track.genre := genre;
     Track.tempo := Finite (inject_Z tempo) |}.

(** Three scored tracks, two rock and one jazz, and an unscored pop track. *)
Definition rock_rock_jazz : heap :=
  [DictFloat [("t1", Finite (1 # 2)); ("t2", Finite (4 # 5)); ("t3", Finite 1)];
   DictTrack [("t1", a_track "rock" 120); ("t2", a_track "rock" 90);
              ("t3", a_track "jazz" 100)]].

Definition with_unscored_pop : heap :=
  [DictFloat [("t1", Finite (1 # 2)); ("t3", Finite 1)];
   DictTrack [("t1", a_track "rock" 120); ("t2", a_track "pop" 90);
              ("t3", a_track "jazz" 100)]].

(** The array [compute_time_sf] builds once the hop size is an int64. *)
Definition time_axis (n : nat) (hop sr : Z) : list float64 :=
  np_true_divide (map (fun x => wrap64 (x * hop)) (np_arange n)) sr.

(** ** Further notions *)

(** Number of scores a genre-partitioned result holds, all genres together. *)
Definition total_scores (v : dict (dict float64)) : nat :=
  sum_list (map (fun e => length e.2) v).

(** The reference [r] is a score dictionary with contents [v]. *)
Definition scores_at (h : heap) (r : loc) (v : dict float64) : Prop :=
  h !! r = Some (DictFloat v).

(** A scored track "t9" that the tracks dictionary does not know. *)
Definition with_unknown_score : heap :=
  [DictFloat [("t1", Finite (1 # 2)); ("t9", Finite (4 # 5)); ("t3", Finite 1)];
   DictTrack [("t1", a_track "rock" 120); ("t3", a_track "jazz" 100)]].

(** Tracks with their estimated beat times. *)
Definition with_estimates : heap :=
  [DictTrack [("t1", a_track "rock" 120); ("t2", a_track "rock" 90);
              ("t3", a_track "jazz" 100)];
   DictArray [("t1", [Finite 1]); ("t2", []); ("t3", [Finite 2]);
              ("t4", [Finite 3])]].

(** The same tracks with their estimates in another order and nothing else. *)
Definition with_reordered_estimates : heap :=
  [DictTrack [("t1", a_track "rock" 120); ("t2", a_track "rock" 90);
              ("t3", a_track "jazz" 100)];
   DictArray [("t3", [Finite 2]); ("t2", []); ("t1", [Finite 1])]].

(** * Proofs *)

(** ** The store primitives *)

Lemma read_at {A} `{Boxed A} (l : loc) (a : A) (h : heap) :
  h !! l = Some (box a) -> read l h = (Ok a, h).
Proof. intros Hl. unfold read. rewrite Hl. simpl. by rewrite unbox_box. Qed.

Lemma getitem_at {V} `{Boxed (dict V)} (d : loc) (k : string) (m : dict V) (h : heap) :
  h !! d = Some (box m) ->
  getitem d k h =
    (match dict_get m k with Some v => Ok v | None => Raise (KeyError k) end, h).
Proof.
  intros Hd. unfold getitem, bind. rewrite (read_at _ _ _ Hd).
  by destruct (dict_get m k).
Qed.

Lemma setitem_at {V} `{Boxed (dict V)} (d : loc) (k : string) (v : V) (m : dict V)
    (h : heap) :
  h !! d = Some (box m) ->
  setitem d k v h = (Ok tt, <[d := box (dict_set m k v)]> h).
Proof. intros Hd. unfold setitem, bind. by rewrite (read_at _ _ _ Hd). Qed.

Lemma keys_at {V} `{Boxed (dict V)} (d : loc) (m : dict V) (h : heap) :
  h !! d = Some (box m) -> keys V d h = (Ok (dict_keys m), h).
Proof. intros Hd. unfold keys, bind. by rewrite (read_at _ _ _ Hd). Qed.

Lemma append_at {A} `{Boxed (list A)} (l : loc) (a : A) (xs : list A) (h : heap) :
  h !! l = Some (box xs) ->
  append l a h = (Ok tt, <[l := box (xs ++ [a])]> h).
Proof. intros Hl. unfold append, bind. by rewrite (read_at _ _ _ Hl). Qed.

Lemma not_in_at (s : string) (l : loc) (xs : list string) (h : heap) :
  h !! l = Some (box xs) ->
  not_in s l h = (Ok (negb (existsb (String.eqb s) xs)), h).
Proof. intros Hl. unfold not_in, bind. by rewrite (read_at _ _ _ Hl). Qed.

(** Objects allocated before [h0] ended are found at the same place in any
    extension of [h0]. *)
Lemma lookup_old (h0 ext : heap) (l : loc) (o : obj) :
  h0 !! l = Some o -> (h0 ++ ext) !! l = Some o.
Proof. intros Hl. by apply lookup_app_l_Some. Qed.

Lemma lookup_fresh (h0 ext : heap) (i : nat) :
  (h0 ++ ext) !! (length h0 + i) = ext !! i.
Proof. rewrite lookup_app_r by lia. f_equal. lia. Qed.

Lemma insert_fresh (h0 ext : heap) (i : nat) (o : obj) :
  <[length h0 + i := o]> (h0 ++ ext) = h0 ++ <[i := o]> ext.
Proof. apply insert_app_r. Qed.

(** ** Loops *)

(** A loop whose body follows a step function, on stores satisfying [I],
    computes the fold of the step; [E] is what is known of the store when the
    loop raises. *)
Lemma for_each_fold {A S} (I : S -> heap -> Prop) (E : heap -> Prop)
    (f : S -> A -> result S) (body : A -> M unit) :
  (forall s x h, I s h ->
     match body x h with
     | (Ok _, h') => exists s', f s x = Ok s' /\ I s' h'
     | (Raise e, h') => f s x = Raise e /\ E h'
     end) ->
  forall xs s h, I s h ->
    match for_each xs body h with
    | (Ok _, h') => exists s', foldM f xs s = Ok s' /\ I s' h'
    | (Raise e, h') => foldM f xs s = Raise e /\ E h'
    end.
Proof.
  intros Hbody xs. induction xs as [|x xs IH]; intros s h HI; simpl.
  - by exists s.
  - unfold bind. specialize (Hbody s x h HI).
    destruct (body x h) as [[[]|e] h1].
    + destruct Hbody as (s' & -> & HI'). apply IH, HI'.
    + by destruct Hbody as [-> HE].
Qed.

Lemma lookup_slot0 (h ext : heap) (a : obj) : (h ++ a :: ext) !! length h = Some a.
Proof. apply list_lookup_middle. done. Qed.

Lemma lookup_slot1 (h ext : heap) (a b : obj) :
  (h ++ a :: b :: ext) !! S (length h) = Some b.
Proof.
  replace (S (length h)) with (length h + 1) by lia. by rewrite lookup_fresh.
Qed.

Lemma insert_slot0 (h ext : heap) (a o : obj) :
  <[length h := o]> (h ++ a :: ext) = h ++ o :: ext.
Proof.
  replace (length h) with (length h + 0) at 1 by lia. by rewrite insert_fresh.
Qed.

Lemma insert_slot1 (h ext : heap) (a b o : obj) :
  <[S (length h) := o]> (h ++ a :: b :: ext) = h ++ a :: o :: ext.
Proof.
  replace (S (length h)) with (length h + 1) by lia. by rewrite insert_fresh.
Qed.

(** ** [get_tempo_vs_performance] *)

Lemma get_tempo_vs_performance_refines (h : heap) (s t : loc)
    (sd : dict float64) (td : dict Track.t) :
  h !! s = Some (box sd) -> h !! t = Some (box td) ->
  exists ext,
    get_tempo_vs_performance s t h = (get_tempo_vs_performance_value sd td, h ++ ext).
Proof.
  intros Hs Ht.
  unfold get_tempo_vs_performance, get_tempo_vs_performance_value.
  unfold new_list, new, bind at 1 2. simpl.
  rewrite <- app_assoc, length_app. simpl.
  replace (length h + 1) with (S (length h)) by lia.
  unfold bind at 1. rewrite (keys_at s sd) by by apply lookup_old.
  set (body := fun track_id : string => _).
  pose proof (for_each_fold
    (fun acc hh => hh = h ++ [box acc.1; box acc.2])
    (fun hh => exists ext, hh = h ++ ext)
    (tempo_step sd td) body) as Hloop.
  simpl in Hloop.
  specialize (Hloop ltac:(
    intros [ts ss] k hh ->; unfold body, bind; simpl;
    rewrite (getitem_at t k td) by (by apply lookup_old);
    unfold tempo_step;
    destruct (dict_get td k) as [track|]; [|by eauto];
    rewrite (getitem_at s k sd) by (by apply lookup_old);
    destruct (dict_get sd k) as [score|]; [|by eauto];
    rewrite (append_at _ _ ts) by apply lookup_slot0;
    rewrite insert_slot0;
    rewrite (append_at _ _ ss) by apply lookup_slot1;
    rewrite insert_slot1; by eauto)).
  specialize (Hloop (dict_keys sd) ([], []) _ eq_refl).
  unfold bind at 1.
  destruct (for_each _ _ _) as [[[]|e] h1].
  - destruct Hloop as ([ts ss] & -> & ->). simpl.
    unfold np_array, bind.
    rewrite (read_at _ ts) by apply lookup_slot0.
    rewrite (read_at _ ss) by apply lookup_slot1.
    by eauto.
  - destruct Hloop as (-> & ext & ->). by eauto.
Qed.

(** ** Dictionaries *)

Lemma dict_get_Some_elem {V} (d : dict V) (k : string) (v : V) :
  dict_get d k = Some v -> (k, v) ∈ d.
Proof.
  induction d as [|[k' v'] d IH]; simpl; [done|].
  destruct (String.eqb_spec k' k) as [->|Hne].
  - intros [= ->]. apply list_elem_of_here.
  - intros Hd. apply list_elem_of_further, IH, Hd.
Qed.

Lemma dict_get_None {V} (d : dict V) (k : string) :
  dict_get d k = None <-> k ∉ dict_keys d.
Proof.
  induction d as [|[k' v'] d IH]; simpl.
  - split; [intros _; apply not_elem_of_nil | done].
  - rewrite not_elem_of_cons. destruct (String.eqb_spec k' k) as [->|Hne].
    + split; [done | by intros []].
    + rewrite IH. split; [by intros ?; split | by intros []].
Qed.

Lemma dict_get_is_Some {V} (d : dict V) (k : string) :
  is_Some (dict_get d k) <-> k ∈ dict_keys d.
Proof.
  rewrite <- not_eq_None_Some, dict_get_None.
  split; [apply dec_stable | by intros ? ?].
Qed.

Lemma dict_get_wf {V} (d : dict V) (k : string) (v : V) :
  dict_wf d -> (k, v) ∈ d -> dict_get d k = Some v.
Proof.
  unfold dict_wf. induction d as [|[k' v'] d IH]; simpl.
  - intros _ Hin. by apply elem_of_nil in Hin.
  - intros [Hk' Hd]%NoDup_cons [[= -> ->]|Hin]%elem_of_cons.
    + by rewrite String.eqb_refl.
    + destruct (String.eqb_spec k' k) as [->|Hne]; [|by apply IH].
      destruct Hk'. apply list_elem_of_fmap. by exists (k, v).
Qed.

Lemma dict_set_fresh {V} (d : dict V) (k : string) (v : V) :
  k ∉ dict_keys d -> dict_set d k v = d ++ [(k, v)].
Proof.
  induction d as [|[k' v'] d IH]; simpl; [done|].
  intros [Hne Hd]%not_elem_of_cons.
  destruct (String.eqb_spec k' k) as [->|_]; [done|]. by rewrite IH.
Qed.

Lemma dict_keys_app {V} (d1 d2 : dict V) :
  dict_keys (d1 ++ d2) = dict_keys d1 ++ dict_keys d2.
Proof. apply map_app. Qed.

(** ** The value of [get_tempo_vs_performance] *)

Lemma tempo_fold (sd : dict float64) (td : dict Track.t) (es : dict float64)
    (ts ss : list float64) :
  (forall k v, (k, v) ∈ es -> dict_get sd k = Some v) ->
  (forall k, k ∈ dict_keys es -> k ∈ dict_keys td) ->
  exists ts',
    foldM (tempo_step sd td) (dict_keys es) (ts, ss) = Ok (ts ++ ts', ss ++ map snd es) /\
    Forall2 (fun e x => exists track,
               dict_get td e.1 = Some track /\ x = Track.tempo track) es ts'.
Proof.
  revert ts ss. induction es as [|[k v] es IH]; intros ts ss Hsd Htd; simpl.
  - exists []. by rewrite !app_nil_r.
  - unfold tempo_step at 1.
    destruct (proj2 (dict_get_is_Some td k)) as [track Htrack].
    { apply Htd. simpl. apply list_elem_of_here. }
    rewrite Htrack, (Hsd k v) by apply list_elem_of_here. simpl.
    destruct (IH (ts ++ [Track.tempo track]) (ss ++ [v])) as (ts' & Hfold & Hall).
    { intros k' v' Hin. apply Hsd. by apply list_elem_of_further. }
    { intros k' Hin. apply Htd. simpl. by apply list_elem_of_further. }
    exists (Track.tempo track :: ts'). rewrite Hfold, <- !app_assoc. split; [done|].
    constructor; [by exists track | done].
Qed.

(** C7. When every scored track is a key of the tracks dictionary,
    [get_tempo_vs_performance] returns a tempo array and a score array that
    both have as many elements as the scores dictionary and are aligned with
    its iteration order: position [i] holds the tempo of the track of the
    [i]-th key and the [i]-th score.  In particular scores
    [{"a": 0.5, "b": 0.8}] with tempos 120 for "a" and 90 for "b" give
    [[120, 90]] and [[0.5, 0.8]]. *)
Theorem get_tempo_vs_performance_aligned (h : heap) (s t : loc)
    (sd : dict float64) (td : dict Track.t) :
  h !! s = Some (DictFloat sd) ->
  h !! t = Some (DictTrack td) ->
  dict_wf sd ->
  (forall k, k ∈ dict_keys sd -> k ∈ dict_keys td) ->
  exists (tempo scores : list float64) (h' : heap),
    get_tempo_vs_performance s t h = (Ok (tempo, scores), h') /\
    length tempo = length sd /\
    length scores = length sd /\
    (forall i k v, sd !! i = Some (k, v) ->
       scores !! i = Some v /\
       exists track, dict_get td k = Some track /\
                     tempo !! i = Some (Track.tempo track)) /\
    (sd = [("a", Finite (1 # 2)); ("b", Finite (4 # 5))] ->
     Track.tempo <$> dict_get td "a" = Some (Finite 120) ->
     Track.tempo <$> dict_get td "b" = Some (Finite 90) ->
     tempo = [Finite 120; Finite 90] /\
     scores = [Finite (1 # 2); Finite (4 # 5)]).
Proof.
  intros Hs Ht Hwf Hkeys.
  destruct (get_tempo_vs_performance_refines h s t sd td Hs Ht) as [ext Hrun].
  destruct (tempo_fold sd td sd [] []) as (tempo & Hfold & Hall).
  { intros k v Hin. by apply dict_get_wf. }
  { done. }
  simpl in Hfold. unfold get_tempo_vs_performance_value in Hrun.
  rewrite Hfold in Hrun.
  exists tempo, (map snd sd), (h ++ ext).
  assert (forall i k v, sd !! i = Some (k, v) ->
            map snd sd !! i = Some v /\
            exists track, dict_get td k = Some track /\
                          tempo !! i = Some (Track.tempo track)) as Haligned.
  { intros i k v Hi. split.
    - change (map snd sd) with (snd <$> sd). rewrite list_lookup_fmap.
      by rewrite Hi.
    - destruct (Forall2_lookup_l _ _ _ _ _ Hall Hi) as (x & Hx & track & Htrack & ->).
      by exists track. }
  split_and!; [done | symmetry; by eapply Forall2_length | apply length_map | done |].
  intros -> Ha Hb.
  destruct (Haligned 0 "a" (Finite (1 # 2)) eq_refl) as (_ & ta & Hta & H0).
  destruct (Haligned 1 "b" (Finite (4 # 5)) eq_refl) as (_ & tb & Htb & H1).
  rewrite Hta in Ha. rewrite Htb in Hb. simpl in Ha, Hb.
  injection Ha as Ha. injection Hb as Hb. rewrite Ha in H0. rewrite Hb in H1.
  apply Forall2_length in Hall. simpl in Hall.
  destruct tempo as [|x0 [|x1 [|x2 tempo]]]; simplify_eq/=. done.
Qed.

Lemma get_tempo_vs_performance_aligned_witness :
  exists h',
    get_tempo_vs_performance 0 1
      [DictFloat [("a", Finite (1 # 2)); ("b", Finite (4 # 5))];
       DictTrack
         [("a", {| Track.beats := {| times := [] |}; Track.genre := "rock";
                   Track.tempo := Finite 120 |});
          ("b", {| Track.beats := {| times := [] |}; Track.genre := "jazz";
                   Track.tempo := Finite 90 |})]]
    = (Ok ([Finite 120; Finite 90], [Finite (1 # 2); Finite (4 # 5)]), h').
Proof.
  destruct (get_tempo_vs_performance_aligned
    [DictFloat [("a", Finite (1 # 2)); ("b", Finite (4 # 5))];
     DictTrack
       [("a", {| Track.beats := {| times := [] |}; Track.genre := "rock";
                 Track.tempo := Finite 120 |});
        ("b", {| Track.beats := {| times := [] |}; Track.genre := "jazz";
                 Track.tempo := Finite 90 |})]]
    0 1 _ _ eq_refl eq_refl)
    as (tempo & scores & h' & Hrun & _ & _ & _ & Hex).
  - unfold dict_wf. simpl. by apply (bool_decide_unpack (NoDup ["a"; "b"])).
  - by simpl.
  - destruct (Hex eq_refl eq_refl eq_refl) as [-> ->]. by exists h'.
Defined.

(** ** [split_by_genre] runs its loops on fresh objects *)

Lemma Forall2_dict_set {V W} (R : V -> W -> Prop) (d1 : dict V) (d2 : dict W)
    (k : string) (v : V) (w : W) :
  Forall2 (fun e1 e2 => e1.1 = e2.1 /\ R e1.2 e2.2) d1 d2 ->
  R v w ->
  Forall2 (fun e1 e2 => e1.1 = e2.1 /\ R e1.2 e2.2) (dict_set d1 k v) (dict_set d2 k w).
Proof.
  intros Hall HR. induction Hall as [|[k1 v1] [k2 w2] d1 d2 [Hk Hvw] Hall IH]; simpl.
  - by repeat constructor.
  - simpl in Hk. subst k2. destruct (String.eqb k1 k); by constructor.
Qed.

(** First loop: the genres list, second object after [h]. *)
Lemma genres_loop (h : heap) (t : loc) (td : dict Track.t) (gs0 : obj)
    (ks : list string) (genres : list string) :
  h !! t = Some (box td) ->
  match
    for_each ks (fun track_id =>
      track <- getitem (V := Track.t) t track_id ;;
      unseen <- not_in (Track.genre track) (S (length h)) ;;
      if unseen : bool then
        track <- getitem (V := Track.t) t track_id ;;
        append (S (length h)) (Track.genre track)
      else ret tt) (h ++ [gs0; ListStr genres])
  with
  | (Ok _, h') => exists genres',
      foldM (genres_step td) ks genres = Ok genres' /\
      h' = h ++ [gs0; ListStr genres']
  | (Raise e, h') =>
      foldM (genres_step td) ks genres = Raise e /\ exists ext, h' = h ++ ext
  end.
Proof.
  intros Ht.
  apply (for_each_fold
    (fun genres hh => hh = h ++ [gs0; ListStr genres])
    (fun hh => exists ext, hh = h ++ ext)); [|done].
  clear genres. intros genres k hh ->. unfold bind, genres_step.
  rewrite (getitem_at t k td) by (by apply lookup_old).
  destruct (dict_get td k) as [track|] eqn:Hk; [|by eauto].
  rewrite (not_in_at _ _ genres) by apply lookup_slot1.
  destruct (negb _); [|simpl; by eauto].
  rewrite (getitem_at t k td), Hk by (by apply lookup_old).
  rewrite (append_at _ _ genres) by apply lookup_slot1.
  rewrite insert_slot1. by eauto.
Qed.

(** Inner loop: the score dictionary of one genre, last object of the store. *)
Lemma genre_tracks_loop (h ext : heap) (s t : loc) (sd : dict float64)
    (td : dict Track.t) (genre : string) (ks : list string) (cur : dict float64) :
  h !! s = Some (box sd) -> h !! t = Some (box td) ->
  match
    for_each ks (fun track_id =>
      track <- getitem (V := Track.t) t track_id ;;
      if String.eqb genre (Track.genre track) then
        score <- getitem (V := float64) s track_id ;;
        setitem (length (h ++ ext)) track_id score
      else ret tt) ((h ++ ext) ++ [DictFloat cur])
  with
  | (Ok _, h') => exists cur',
      foldM (genre_tracks_step sd td genre) ks cur = Ok cur' /\
      h' = (h ++ ext) ++ [DictFloat cur']
  | (Raise e, h') =>
      foldM (genre_tracks_step sd td genre) ks cur = Raise e /\
      exists ext', h' = h ++ ext'
  end.
Proof.
  intros Hs Ht.
  apply (for_each_fold
    (fun cur hh => hh = (h ++ ext) ++ [DictFloat cur])
    (fun hh => exists ext', hh = h ++ ext')); [|done].
  clear cur. intros cur k hh ->. unfold bind, genre_tracks_step.
  rewrite <- (app_assoc h).
  rewrite (getitem_at t k td) by (by apply lookup_old).
  destruct (dict_get td k) as [track|]; [|by eauto].
  destruct (String.eqb genre (Track.genre track)).
  - rewrite (getitem_at s k sd) by (by apply lookup_old).
    destruct (dict_get sd k) as [score|]; [|by eauto].
    rewrite (app_assoc h).
    rewrite (setitem_at _ _ _ cur) by apply lookup_slot0.
    rewrite insert_slot0. by eauto.
  - rewrite (app_assoc h). simpl. by eauto.
Qed.

(** Second loop: one score dictionary allocated and filled per genre. *)
Lemma genre_scores_loop (h : heap) (s t : loc) (sd : dict float64)
    (td : dict Track.t) (genres gl : list string)
    (acc : dict (dict float64)) (D : dict loc) (subs : list (dict float64)) :
  h !! s = Some (box sd) -> h !! t = Some (box td) ->
  Forall2 (fun e1 e2 => e1.1 = e2.1 /\ slot h subs e1.2 e2.2) D acc ->
  match
    for_each gl (fun genre =>
      genre_tracks <- new_dict float64 ;;
      track_ids <- keys float64 s ;;
      for_each track_ids (fun track_id =>
        track <- getitem (V := Track.t) t track_id ;;
        if String.eqb genre (Track.genre track) then
          score <- getitem (V := float64) s track_id ;;
          setitem genre_tracks track_id score
        else ret tt) ;;
      setitem (length h) genre genre_tracks)
      (h ++ DictDict D :: ListStr genres :: map DictFloat subs)
  with
  | (Ok _, h') => exists acc' D' subs',
      foldM (genre_scores_step sd td) gl acc = Ok acc' /\
      h' = h ++ DictDict D' :: ListStr genres :: map DictFloat subs' /\
      Forall2 (fun e1 e2 => e1.1 = e2.1 /\ slot h subs' e1.2 e2.2) D' acc'
  | (Raise e, h') =>
      foldM (genre_scores_step sd td) gl acc = Raise e /\ exists ext, h' = h ++ ext
  end.
Proof.
  intros Hs Ht Hall.
  pose proof (for_each_fold
    (fun acc hh => exists D subs,
       hh = h ++ DictDict D :: ListStr genres :: map DictFloat subs /\
       Forall2 (fun e1 e2 => e1.1 = e2.1 /\ slot h subs e1.2 e2.2) D acc)
    (fun hh => exists ext, hh = h ++ ext)
    (genre_scores_step sd td)) as Hloop.
  match goal with |- context [for_each gl ?b] => specialize (Hloop b) end.
  lapply Hloop; clear Hloop.
  - intros Hloop. specialize (Hloop gl acc _ (ex_intro _ D (ex_intro _ subs (conj eq_refl Hall)))).
    destruct (for_each gl _ _) as [[[]|e] h1]; [|done].
    destruct Hloop as (acc' & Hfold & D' & subs' & -> & Hall'). by eauto 6.
  - clear acc D subs Hall. intros acc g hh (D & subs & -> & Hall).
    unfold bind at 1, new_dict, new.
    set (ext := DictDict D :: ListStr genres :: map DictFloat subs).
    change (box []) with (DictFloat []).
    unfold bind at 1.
    rewrite (keys_at s sd) by (rewrite <- app_assoc; by apply lookup_old).
    unfold bind at 1, genre_scores_step.
    pose proof (genre_tracks_loop h ext s t sd td g (dict_keys sd) [] Hs Ht) as Hin.
    destruct (for_each (dict_keys sd) _ _) as [[[]|e] h1]; [|by destruct Hin as [-> ?]].
    destruct Hin as (gt & -> & ->).
    assert ((h ++ ext) ++ [DictFloat gt] =
            h ++ DictDict D :: ListStr genres :: map DictFloat (subs ++ [gt])) as ->.
    { unfold ext. by rewrite map_app, <- app_assoc. }
    rewrite (setitem_at _ _ _ D) by apply lookup_slot0.
    rewrite insert_slot0.
    eexists. split; [done|]. eexists _, _. split; [done|].
    apply Forall2_dict_set.
    + eapply Forall2_impl; [exact Hall|].
      intros e1 e2 (Hk & i & Hl & Hi). split; [done|]. exists i. split; [done|].
      by apply lookup_app_l_Some.
    + exists (length subs). split.
      * unfold ext. rewrite length_app. simpl. by rewrite length_map.
      * by apply list_lookup_middle.
Qed.

(** [split_by_genre] allocates after the objects it was given, changes none
    of them, and ends as [split_by_genre_value] says. *)
Lemma split_by_genre_refines (h : heap) (s t : loc)
    (sd : dict float64) (td : dict Track.t) :
  h !! s = Some (box sd) -> h !! t = Some (box td) ->
  exists ext res,
    split_by_genre s t h = (res, h ++ ext) /\
    match res with
    | Ok r => exists v,
        split_by_genre_value sd td = Ok v /\ genre_scores_at (h ++ ext) r v
    | Raise e => split_by_genre_value sd td = Raise e
    end.
Proof.
  intros Hs Ht. unfold split_by_genre, split_by_genre_value.
  unfold new_dict, new_list, new, bind at 1 2.
  rewrite <- app_assoc, length_app. simpl.
  replace (length h + 1) with (S (length h)) by lia.
  unfold bind at 1. rewrite (keys_at t td) by (by apply lookup_old).
  unfold bind at 1.
  pose proof (genres_loop h t td (DictDict []) (dict_keys td) [] Ht) as H1.
  destruct (for_each (dict_keys td) _ _) as [[[]|e] h1].
  2:{ destruct H1 as (-> & ext & ->). by exists ext, (Raise e). }
  destruct H1 as (genres & -> & ->).
  unfold bind at 1, items. rewrite (read_at _ genres) by apply lookup_slot1.
  unfold bind at 1.
  pose proof (genre_scores_loop h s t sd td genres genres [] [] [] Hs Ht
                (Forall2_nil_2 _ _ _)) as H2.
  simpl in H2.
  destruct (for_each genres _ _) as [[[]|e] h2].
  2:{ destruct H2 as (-> & ext & ->). by exists ext, (Raise e). }
  destruct H2 as (v & D & subs & -> & -> & Hall).
  eexists _, (Ok _). split; [done|]. exists v. split; [done|].
  exists D. split; [apply lookup_slot0|].
  eapply Forall2_impl; [exact Hall|].
  intros e1 e2 (Hk & i & -> & Hi). split; [done|].
  rewrite lookup_fresh. simpl.
  change (map DictFloat subs) with (DictFloat <$> subs).
  by rewrite list_lookup_fmap, Hi.
Qed.

(** ** The value of [split_by_genre] *)

Lemma existsb_eqb_elem (s : string) (l : list string) :
  existsb (String.eqb s) l = true <-> s ∈ l.
Proof.
  rewrite existsb_exists. split.
  - intros (x & Hin & ->%String.eqb_eq). by apply list_elem_of_In.
  - intros Hin. exists s. split; [by apply list_elem_of_In | apply String.eqb_refl].
Qed.

Lemma elem_of_first_seen (l : list string) (x : string) :
  x ∈ first_seen l <-> x ∈ l.
Proof.
  induction l as [|y l IH]; simpl; [done|].
  rewrite !elem_of_cons, list_elem_of_filter, IH.
  destruct (decide (x = y)); intuition congruence.
Qed.

Lemma NoDup_first_seen (l : list string) : NoDup (first_seen l).
Proof.
  induction l as [|y l IH]; simpl; [constructor|].
  apply NoDup_cons. split.
  - rewrite list_elem_of_filter. by intros [? _].
  - by apply NoDup_filter.
Qed.

Lemma filter_all {A} (P : A -> Prop) `{forall x, Decision (P x)} (l : list A) :
  (forall x, P x) -> filter P l = l.
Proof.
  intros HP. induction l as [|x l IH]; [done|].
  by rewrite filter_cons_True, IH.
Qed.

Lemma genres_fold (td es : dict Track.t) (acc : list string) :
  (forall k track, (k, track) ∈ es -> dict_get td k = Some track) ->
  foldM (genres_step td) (dict_keys es) acc =
    Ok (acc ++ filter (fun g => g ∉ acc) (first_seen (map (fun e => Track.genre e.2) es))).
Proof.
  revert acc. induction es as [|[k track] es IH]; intros acc Hes; simpl.
  - by rewrite app_nil_r.
  - unfold genres_step at 1. rewrite (Hes k track) by apply list_elem_of_here.
    set (g := Track.genre track).
    set (rest := first_seen _).
    assert (forall k' track', (k', track') ∈ es -> dict_get td k' = Some track') as Hes'.
    { intros k' track' Hin. apply Hes. by apply list_elem_of_further. }
    destruct (existsb (String.eqb g) acc) eqn:Hseen; simpl.
    + apply existsb_eqb_elem in Hseen. rewrite (IH acc Hes'). fold rest.
      rewrite filter_cons_False by (by intros ?).
      rewrite list_filter_filter. do 2 f_equal.
      apply list_filter_iff. intros y. intuition congruence.
    + assert (g ∉ acc) as Hnew.
      { rewrite <- existsb_eqb_elem. by rewrite Hseen. }
      rewrite (IH (acc ++ [g]) Hes'). fold rest.
      rewrite filter_cons_True by done.
      rewrite <- app_assoc. simpl. do 3 f_equal.
      rewrite list_filter_filter. apply list_filter_iff. intros y.
      rewrite elem_of_app, list_elem_of_singleton. intuition congruence.
Qed.

Lemma genre_tracks_fold (sd es : dict float64) (td : dict Track.t) (g : string)
    (cur : dict float64) :
  (forall k v, (k, v) ∈ es -> dict_get sd k = Some v) ->
  (forall k, k ∈ dict_keys es -> k ∈ dict_keys td) ->
  NoDup (dict_keys es) ->
  (forall k, k ∈ dict_keys es -> k ∉ dict_keys cur) ->
  foldM (genre_tracks_step sd td g) (dict_keys es) cur =
    Ok (cur ++ filter (fun e => genre_of td e.1 = Some g) es).
Proof.
  revert cur. induction es as [|[k v] es IH]; intros cur Hsd Htd Hnd Hcur; simpl.
  - by rewrite app_nil_r.
  - simpl in Hnd. apply NoDup_cons in Hnd as [Hk Hnd].
    unfold genre_tracks_step at 1.
    destruct (proj2 (dict_get_is_Some td k)) as [track Htrack].
    { apply Htd. simpl. apply list_elem_of_here. }
    rewrite Htrack.
    assert (forall k' v', (k', v') ∈ es -> dict_get sd k' = Some v') as Hsd'.
    { intros k' v' Hin. apply Hsd. by apply list_elem_of_further. }
    assert (forall k', k' ∈ dict_keys es -> k' ∈ dict_keys td) as Htd'.
    { intros k' Hin. apply Htd. simpl. by apply list_elem_of_further. }
    destruct (String.eqb_spec g (Track.genre track)) as [Hg|Hg].
    + rewrite (Hsd k v) by apply list_elem_of_here.
      rewrite dict_set_fresh by (apply Hcur; simpl; apply list_elem_of_here).
      rewrite IH; [|done..|].
      * rewrite filter_cons_True by (simpl; unfold genre_of; by rewrite Htrack, Hg).
        by rewrite <- app_assoc.
      * intros k' Hin. rewrite dict_keys_app, elem_of_app. simpl.
        rewrite list_elem_of_singleton. intros [Hc| ->]; [|done].
        eapply Hcur; [|exact Hc]. simpl. by apply list_elem_of_further.
    + rewrite IH; [|done..|].
      * rewrite filter_cons_False; [done|].
        simpl. unfold genre_of. rewrite Htrack. simpl. congruence.
      * intros k' Hin. apply Hcur. simpl. by apply list_elem_of_further.
Qed.

Lemma genre_scores_fold (sd : dict float64) (td : dict Track.t)
    (gl : list string) (acc : dict (dict float64)) :
  dict_wf sd ->
  (forall k, k ∈ dict_keys sd -> k ∈ dict_keys td) ->
  NoDup gl ->
  (forall g, g ∈ gl -> g ∉ dict_keys acc) ->
  foldM (genre_scores_step sd td) gl acc =
    Ok (acc ++ map (fun g => (g, scores_of_genre sd td g)) gl).
Proof.
  intros Hwf Htd. revert acc.
  induction gl as [|g gl IH]; intros acc Hnd Hacc; simpl.
  - by rewrite app_nil_r.
  - apply NoDup_cons in Hnd as [Hg Hnd].
    unfold genre_scores_step at 1.
    rewrite (genre_tracks_fold sd sd td g []);
      [|by intros; apply dict_get_wf|done|done|by intros; apply not_elem_of_nil].
    simpl. rewrite dict_set_fresh by (apply Hacc, list_elem_of_here).
    rewrite IH; [by rewrite <- app_assoc|done|].
    intros g' Hin. rewrite dict_keys_app, elem_of_app. simpl.
    rewrite list_elem_of_singleton. intros [Hc| ->]; [|done].
    eapply Hacc; [|exact Hc]. by apply list_elem_of_further.
Qed.

(** With well-formed dictionaries and every scored track known, the result
    has one entry per genre, in first-seen order, holding the scores of that
    genre. *)
Lemma split_by_genre_value_ok (sd : dict float64) (td : dict Track.t) :
  dict_wf sd -> dict_wf td ->
  (forall k, k ∈ dict_keys sd -> k ∈ dict_keys td) ->
  split_by_genre_value sd td =
    Ok (map (fun g => (g, scores_of_genre sd td g))
            (first_seen (map (fun e => Track.genre e.2) td))).
Proof.
  intros Hsd Htd Hkeys. unfold split_by_genre_value.
  rewrite (genres_fold td td []) by (by intros; apply dict_get_wf).
  simpl. rewrite filter_all by (intros g; apply not_elem_of_nil).
  rewrite genre_scores_fold;
    [done|done|done|apply NoDup_first_seen|by intros; apply not_elem_of_nil].
Qed.

(** The run of [split_by_genre] on well-formed arguments. *)
Lemma split_by_genre_run (h : heap) (s t : loc)
    (sd : dict float64) (td : dict Track.t) :
  h !! s = Some (DictFloat sd) ->
  h !! t = Some (DictTrack td) ->
  dict_wf sd -> dict_wf td ->
  (forall k, k ∈ dict_keys sd -> k ∈ dict_keys td) ->
  exists (r : loc) (h' : heap),
    split_by_genre s t h = (Ok r, h') /\
    genre_scores_at h' r
      (map (fun g => (g, scores_of_genre sd td g))
           (first_seen (map (fun e => Track.genre e.2) td))).
Proof.
  intros Hs Ht Hsd Htd Hkeys.
  destruct (split_by_genre_refines h s t sd td Hs Ht) as (ext & res & Hrun & Hres).
  rewrite (split_by_genre_value_ok sd td Hsd Htd Hkeys) in Hres.
  destruct res as [r|e]; [|done].
  destruct Hres as (v & [= <-] & Hat). by exists r, (h ++ ext).
Qed.

Lemma elem_of_genres (td : dict Track.t) (k : string) (track : Track.t) :
  dict_get td k = Some track ->
  Track.genre track ∈ first_seen (map (fun e => Track.genre e.2) td).
Proof.
  intros Hk%dict_get_Some_elem. apply elem_of_first_seen.
  apply list_elem_of_In, in_map_iff. exists (k, track).
  split; [done | by apply list_elem_of_In].
Qed.

(** C6. On well-formed dictionaries where every scored track is known,
    [split_by_genre] returns a dictionary whose keys are the genres of the
    tracks dictionary in first-seen order without duplicates, each mapped to
    the scores of the tracks of that genre, unchanged: every score of the
    scores dictionary is in the sub-mapping of its track's genre and in no
    other.  In particular three tracks with genres rock, rock, jazz give
    exactly the keys rock and jazz, and the rock sub-mapping holds exactly
    the two rock tracks with their scores. *)
Theorem split_by_genre_partitions (h : heap) (s t : loc)
    (sd : dict float64) (td : dict Track.t) :
  h !! s = Some (DictFloat sd) ->
  h !! t = Some (DictTrack td) ->
  dict_wf sd -> dict_wf td ->
  (forall k, k ∈ dict_keys sd -> k ∈ dict_keys td) ->
  exists (r : loc) (h' : heap) (v : dict (dict float64)),
    split_by_genre s t h = (Ok r, h') /\
    genre_scores_at h' r v /\
    dict_keys v = first_seen (map (fun e => Track.genre e.2) td) /\
    (forall g m, (g, m) ∈ v -> m = scores_of_genre sd td g) /\
    (forall k x, (k, x) ∈ sd ->
       exists track m,
         dict_get td k = Some track /\
         (Track.genre track, m) ∈ v /\
         (k, x) ∈ m /\
         forall g' m' x', (g', m') ∈ v -> (k, x') ∈ m' ->
                          g' = Track.genre track /\ x' = x) /\
    (forall a b c ta tb tc xa xb xc,
       td = [(a, ta); (b, tb); (c, tc)] ->
       sd = [(a, xa); (b, xb); (c, xc)] ->
       Track.genre ta = "rock" -> Track.genre tb = "rock" ->
       Track.genre tc = "jazz" ->
       v = [("rock", [(a, xa); (b, xb)]); ("jazz", [(c, xc)])]).
Proof.
  intros Hs Ht Hsd Htd Hkeys.
  destruct (split_by_genre_run h s t sd td Hs Ht Hsd Htd Hkeys) as (r & h' & Hrun & Hat).
  set (genres := first_seen (map (fun e => Track.genre e.2) td)) in *.
  set (v := map (fun g => (g, scores_of_genre sd td g)) genres) in *.
  assert (forall g m, (g, m) ∈ v -> g ∈ genres /\ m = scores_of_genre sd td g) as Hv.
  { intros g m Hin. apply list_elem_of_In, in_map_iff in Hin as (g' & [= -> <-] & Hin).
    by apply list_elem_of_In in Hin. }
  exists r, h', v. split_and!; [done | done | | | |].
  - unfold v, dict_keys. rewrite map_map. simpl. apply map_id.
  - intros g m Hin. by apply Hv.
  - intros k x Hin.
    destruct (proj2 (dict_get_is_Some td k)) as [track Htrack].
    { apply Hkeys, list_elem_of_In, in_map_iff. exists (k, x).
      split; [done | by apply list_elem_of_In]. }
    exists track, (scores_of_genre sd td (Track.genre track)).
    split_and!; [done | | |].
    + apply list_elem_of_In, in_map_iff. exists (Track.genre track).
      split; [done|]. apply list_elem_of_In. by eapply elem_of_genres.
    + apply list_elem_of_filter. split; [|done].
      simpl. unfold genre_of. by rewrite Htrack.
    + intros g' m' x' [_ ->]%Hv [Hg Hx']%list_elem_of_filter.
      simpl in Hg. unfold genre_of in Hg. rewrite Htrack in Hg.
      injection Hg as <-. split; [done|].
      apply (dict_get_wf _ _ _ Hsd) in Hin, Hx'. congruence.
  - intros a b c ta tb tc xa xb xc Etd Esd Ha Hb Hc.
    assert (a <> b /\ a <> c /\ b <> c) as (Hab & Hac & Hbc).
    { unfold dict_wf in Htd. rewrite Etd in Htd. simpl in Htd.
      apply NoDup_cons in Htd as [Ha' Htd]. apply NoDup_cons in Htd as [Hb' _].
      split_and!; intros ->.
      - apply Ha', list_elem_of_here.
      - apply Ha', list_elem_of_further, list_elem_of_here.
      - apply Hb', list_elem_of_here. }
    assert (genre_of td a = Some "rock" /\ genre_of td b = Some "rock" /\
            genre_of td c = Some "jazz") as (Ga & Gb & Gc).
    { unfold genre_of. rewrite Etd. simpl.
      rewrite !String.eqb_refl.
      rewrite (proj2 (String.eqb_neq a b)), (proj2 (String.eqb_neq a c)),
        (proj2 (String.eqb_neq b c)) by done.
      simpl. by rewrite Ha, Hb, Hc. }
    assert (genres = ["rock"; "jazz"]) as ->.
    { unfold genres. rewrite Etd. simpl. by rewrite Ha, Hb, Hc. }
    unfold v, scores_of_genre. rewrite Esd. simpl map.
    rewrite !filter_cons, filter_nil. simpl. rewrite Ga, Gb, Gc. done.
Qed.

Lemma split_by_genre_partitions_witness :
  exists (r : loc) (h' : heap),
    split_by_genre 0 1 rock_rock_jazz = (Ok r, h') /\
    genre_scores_at h' r
      [("rock", [("t1", Finite (1 # 2)); ("t2", Finite (4 # 5))]);
       ("jazz", [("t3", Finite 1)])].
Proof.
  destruct (split_by_genre_partitions rock_rock_jazz 0 1 _ _ eq_refl eq_refl)
    as (r & h' & v & Hrun & Hat & _ & _ & _ & Hex).
  - by apply (bool_decide_unpack (NoDup ["t1"; "t2"; "t3"])).
  - by apply (bool_decide_unpack (NoDup ["t1"; "t2"; "t3"])).
  - done.
  - rewrite (Hex _ _ _ _ _ _ _ _ _ eq_refl eq_refl eq_refl eq_refl eq_refl) in Hat.
    by exists r, h'.
Defined.

Lemma dict_get_map {V} (f : string -> V) (l : list string) (g : string) :
  g ∈ l -> dict_get (map (fun g => (g, f g)) l) g = Some (f g).
Proof.
  induction l as [|x l IH]; simpl.
  - intros Hin. by apply elem_of_nil in Hin.
  - destruct (String.eqb_spec x g) as [->|Hne]; [done|].
    intros [->|Hin]%elem_of_cons; [done | by apply IH].
Qed.

Lemma filter_none {A} (P : A -> Prop) `{forall x, Decision (P x)} (l : list A) :
  (forall x, x ∈ l -> ~ P x) -> filter P l = [].
Proof.
  induction l as [|x l IH]; intros Hl; [done|].
  rewrite filter_cons_False by apply Hl, list_elem_of_here.
  apply IH. intros y Hy. by apply Hl, list_elem_of_further.
Qed.

(** C10. On well-formed dictionaries where every scored track is known, the
    result of [split_by_genre] has a key for the genre of every track of the
    tracks dictionary; when no scored track has that genre the key is still
    there and maps to an empty dictionary. *)
Theorem split_by_genre_keeps_unscored_genres (h : heap) (s t : loc)
    (sd : dict float64) (td : dict Track.t) :
  h !! s = Some (DictFloat sd) ->
  h !! t = Some (DictTrack td) ->
  dict_wf sd -> dict_wf td ->
  (forall k, k ∈ dict_keys sd -> k ∈ dict_keys td) ->
  exists (r : loc) (h' : heap) (v : dict (dict float64)),
    split_by_genre s t h = (Ok r, h') /\
    genre_scores_at h' r v /\
    forall k track, (k, track) ∈ td ->
      Track.genre track ∈ dict_keys v /\
      ((forall k', k' ∈ dict_keys sd -> genre_of td k' <> Some (Track.genre track)) ->
       dict_get v (Track.genre track) = Some []).
Proof.
  intros Hs Ht Hsd Htd Hkeys.
  destruct (split_by_genre_run h s t sd td Hs Ht Hsd Htd Hkeys) as (r & h' & Hrun & Hat).
  eexists r, h', _. split_and!; [done | done |].
  intros k track Hin.
  assert (Track.genre track ∈ first_seen (map (fun e => Track.genre e.2) td)) as Hg.
  { eapply elem_of_genres. by apply dict_get_wf. }
  split.
  - unfold dict_keys. rewrite map_map. simpl. by rewrite map_id.
  - intros Hnone. rewrite dict_get_map by done. f_equal.
    apply filter_none. intros [k' x] Hk'. simpl. apply Hnone.
    apply list_elem_of_In, in_map_iff. exists (k', x).
    split; [done | by apply list_elem_of_In].
Qed.

Lemma split_by_genre_keeps_unscored_genres_witness :
  exists (r : loc) (h' : heap) (v : dict (dict float64)),
    split_by_genre 0 1 with_unscored_pop = (Ok r, h') /\
    genre_scores_at h' r v /\
    dict_get v "pop" = Some [].
Proof.
  destruct (split_by_genre_keeps_unscored_genres with_unscored_pop 0 1 _ _
              eq_refl eq_refl)
    as (r & h' & v & Hrun & Hat & Hall).
  - by apply (bool_decide_unpack (NoDup ["t1"; "t3"])).
  - by apply (bool_decide_unpack (NoDup ["t1"; "t2"; "t3"])).
  - intros k Hk. apply (bool_decide_unpack _).
    revert k Hk. apply Forall_forall. by repeat constructor.
  - exists r, h', v. split_and!; [done | done |].
    apply (Hall "t2" (a_track "pop" 90)).
    + apply list_elem_of_further, list_elem_of_here.
    + intros k Hk. revert k Hk. apply Forall_forall. by repeat constructor.
Defined.

(** A reference reads back as at most one value. *)
Lemma genre_scores_at_functional (h : heap) (r : loc) (v1 v2 : dict (dict float64)) :
  genre_scores_at h r v1 -> genre_scores_at h r v2 -> v1 = v2.
Proof.
  intros (d1 & Hr1 & Hall1) (d2 & Hr2 & Hall2).
  rewrite Hr1 in Hr2. injection Hr2 as <-. clear Hr1.
  revert v2 Hall2. induction Hall1 as [|[g l] [g1 m1] d v1 [Hg1 Hm1] _ IH];
    intros v2 Hall2.
  - by apply Forall2_nil_inv_l in Hall2.
  - apply Forall2_cons_inv_l in Hall2 as ([g2 m2] & v2' & [Hg2 Hm2] & Hall2 & ->).
    simpl in *. rewrite (IH v2' Hall2). congruence.
Qed.

(** ** Calling twice *)

(** A call that returns a plain value and leaves the store alone. *)
Lemma repeatable_ret {A} (a : A) (h : heap) : repeatable by_value (ret a) h.
Proof. split; [done|]. simpl. by exists a. Qed.

(** A call that ends the same way on every store and leaves it alone. *)
Lemma repeatable_lift {A} (m : M A) (res : result A) (h : heap) :
  (forall h', m h' = (res, h')) -> repeatable by_value m h.
Proof.
  intros Hm. unfold repeatable. rewrite !Hm. simpl. split; [done|].
  destruct res as [a|e]; [by exists a | done].
Qed.

Lemma compute_time_sf_store (novelty_sf : list float64) (hop_size sr : option Z) :
  exists res, forall h, compute_time_sf novelty_sf hop_size sr h = (res, h).
Proof.
  unfold compute_time_sf, bind, lift, ret.
  destruct (np_multiply _ _) as [scaled|e]; by eexists.
Qed.

Lemma split_by_genre_repeatable (h : heap) (s t : loc)
    (sd : dict float64) (td : dict Track.t) :
  h !! s = Some (DictFloat sd) -> h !! t = Some (DictTrack td) ->
  repeatable genre_scores_at (split_by_genre s t) h.
Proof.
  intros Hs Ht. unfold repeatable.
  destruct (split_by_genre_refines h s t sd td Hs Ht) as (ext1 & res1 & -> & H1).
  simpl.
  destruct (split_by_genre_refines (h ++ ext1) s t sd td) as (ext2 & res2 & -> & H2);
    [by apply lookup_old..|].
  simpl. split; [by apply prefix_app_r|].
  destruct res1 as [r1|e1], res2 as [r2|e2].
  - destruct H1 as (v1 & Hv1 & Hat1), H2 as (v2 & Hv2 & Hat2).
    exists v1. split; [done|]. congruence.
  - destruct H1 as (v1 & Hv1 & _). congruence.
  - destruct H2 as (v2 & Hv2 & _). congruence.
  - congruence.
Qed.

Lemma get_tempo_vs_performance_repeatable (h : heap) (s t : loc)
    (sd : dict float64) (td : dict Track.t) :
  h !! s = Some (DictFloat sd) -> h !! t = Some (DictTrack td) ->
  repeatable by_value (get_tempo_vs_performance s t) h.
Proof.
  intros Hs Ht. unfold repeatable.
  destruct (get_tempo_vs_performance_refines h s t sd td Hs Ht) as (ext1 & ->).
  simpl.
  destruct (get_tempo_vs_performance_refines (h ++ ext1) s t sd td) as (ext2 & ->);
    [by apply lookup_old..|].
  simpl. split; [by apply prefix_app_r|].
  destruct (get_tempo_vs_performance_value sd td) as [v|e]; [by exists v | done].
Qed.

(** C8. Calling [split_by_genre], [get_tempo_vs_performance],
    [compute_time_sf] or [compute_time_ml] twice in a row with the same
    arguments gives the same outcome both times, and the first call leaves
    every object that existed before it unchanged, its arguments included:
    nothing a call does is visible to the next one. *)
Theorem aggregators_and_time_axes_are_pure :
  (forall h s t sd td,
     h !! s = Some (DictFloat sd) -> h !! t = Some (DictTrack td) ->
     repeatable genre_scores_at (split_by_genre s t) h) /\
  (forall h s t sd td,
     h !! s = Some (DictFloat sd) -> h !! t = Some (DictTrack td) ->
     repeatable by_value (get_tempo_vs_performance s t) h) /\
  (forall h novelty_sf hop_size sr,
     repeatable by_value (compute_time_sf novelty_sf hop_size sr) h) /\
  (forall h novelty_ml sr_ml,
     repeatable by_value (compute_time_ml novelty_ml sr_ml) h).
Proof.
  split_and!.
  - apply split_by_genre_repeatable.
  - apply get_tempo_vs_performance_repeatable.
  - intros h novelty_sf hop_size sr.
    destruct (compute_time_sf_store novelty_sf hop_size sr) as [res Hres].
    by apply (repeatable_lift _ res).
  - intros. apply repeatable_ret.
Qed.

Lemma aggregators_and_time_axes_are_pure_witness :
  repeatable genre_scores_at (split_by_genre 0 1) rock_rock_jazz /\
  repeatable by_value (get_tempo_vs_performance 0 1) rock_rock_jazz.
Proof.
  split.
  - exact (proj1 aggregators_and_time_axes_are_pure
             rock_rock_jazz 0 1 _ _ eq_refl eq_refl).
  - exact (proj1 (proj2 aggregators_and_time_axes_are_pure)
             rock_rock_jazz 0 1 _ _ eq_refl eq_refl).
Defined.

(** ** Time axes *)

Lemma true_divide_finite (a b : Z) :
  b <> 0%Z -> true_divide a b = Finite (inject_Z a / inject_Z b).
Proof. intros Hb. unfold true_divide. by rewrite (proj2 (Z.eqb_neq b 0)). Qed.

Lemma Qdiv_lt_pos (a b s : Z) :
  (0 < s)%Z -> (a < b)%Z -> (inject_Z a / inject_Z s < inject_Z b / inject_Z s)%Q.
Proof.
  intros Hs Hab. apply Qmult_lt_compat_r.
  - apply Qinv_lt_0_compat. change 0%Q with (inject_Z 0). by rewrite <- Zlt_Qlt.
  - by rewrite <- Zlt_Qlt.
Qed.


Lemma np_arange_lookup (n i : nat) :
  i < n -> np_arange n !! i = Some (Z.of_nat i).
Proof.
  intros Hi. unfold np_arange. change (map Z.of_nat (seq 0 n)) with (Z.of_nat <$> seq 0 n).
  by rewrite list_lookup_fmap, lookup_seq_lt.
Qed.

Lemma np_arange_length (n : nat) : length (np_arange n) = n.
Proof. unfold np_arange. by rewrite length_map, length_seq. Qed.

Lemma np_true_divide_lookup (a : list Z) (k : Z) (i : nat) :
  np_true_divide a k !! i = (fun x => true_divide x k) <$> a !! i.
Proof. apply list_lookup_fmap. Qed.

Lemma in_int64_spec (z : Z) :
  in_int64 z = true <-> (- 2 ^ 63 <= z < 2 ^ 63)%Z.
Proof. unfold in_int64. rewrite andb_true_iff, Z.leb_le, Z.ltb_lt. tauto. Qed.

Lemma wrap64_id (z : Z) : (- 2 ^ 63 <= z < 2 ^ 63)%Z -> wrap64 z = z.
Proof.
  intros Hz. unfold wrap64.
  rewrite Z.mod_small; [lia|].
  change (2 ^ 64)%Z with (2 ^ 63 + 2 ^ 63)%Z. lia.
Qed.

(** Below [2 ^ 63] in size, no product of the axis wraps. *)
Lemma no_wrap (n i : nat) (hop : Z) :
  (Z.of_nat n * Z.abs hop < 2 ^ 63)%Z -> i < n ->
  wrap64 (Z.of_nat i * hop) = (Z.of_nat i * hop)%Z.
Proof. intros Hn Hi. apply wrap64_id. nia. Qed.

Lemma compute_time_sf_in_range (novelty_sf : list float64) (hop_size sr : option Z)
    (h : heap) :
  in_int64 (default 512%Z hop_size) = true ->
  compute_time_sf novelty_sf hop_size sr h =
    (Ok (time_axis (length novelty_sf) (default 512%Z hop_size) (default 22050%Z sr)), h).
Proof.
  intros Hhop. unfold compute_time_sf, np_multiply, bind, lift, ret.
  by rewrite Hhop.
Qed.

Lemma compute_time_sf_out_of_range (novelty_sf : list float64)
    (hop_size sr : option Z) (h : heap) :
  in_int64 (default 512%Z hop_size) = false ->
  compute_time_sf novelty_sf hop_size sr h = (Raise OverflowError, h).
Proof.
  intros Hhop. unfold compute_time_sf, np_multiply, bind, lift, ret.
  by rewrite Hhop.
Qed.

Lemma time_axis_lookup (n : nat) (hop sr : Z) (i : nat) :
  i < n ->
  time_axis n hop sr !! i = Some (true_divide (wrap64 (Z.of_nat i * hop)) sr).
Proof.
  intros Hi. unfold time_axis. rewrite np_true_divide_lookup.
  change (map ?f ?l) with (f <$> l). rewrite list_lookup_fmap.
  by rewrite np_arange_lookup.
Qed.

Lemma time_axis_length (n : nat) (hop sr : Z) : length (time_axis n hop sr) = n.
Proof. unfold time_axis, np_true_divide. by rewrite !length_map, np_arange_length. Qed.

(** C4, as amended.  [compute_time_sf] returns for every hop size that is an
    int64 (and raises OverflowError otherwise), without touching the store,
    an array with one element per element of the novelty curve.  For a
    non-zero sample rate [S] the first element is 0.  When no product
    [i * H] leaves int64, element [i] is [i * H / S] for a non-zero [S], and
    for a positive hop length [H] and a positive [S] the array is strictly
    increasing. *)
Theorem compute_time_sf_axis (novelty_sf : list float64) (hop_size sr : option Z)
    (h : heap) :
  (- 2 ^ 63 <= default 512 hop_size < 2 ^ 63)%Z ->
  exists time_sf : list float64,
    compute_time_sf novelty_sf hop_size sr h = (Ok time_sf, h) /\
    length time_sf = length novelty_sf /\
    (default 22050%Z sr <> 0%Z -> 0 < length novelty_sf ->
     exists x, time_sf !! 0 = Some x /\ f64_eq x (Finite 0)) /\
    ((Z.of_nat (length novelty_sf) * Z.abs (default 512 hop_size) < 2 ^ 63)%Z ->
     default 22050%Z sr <> 0%Z ->
     forall i, i < length novelty_sf ->
       time_sf !! i =
         Some (Finite (inject_Z (Z.of_nat i * default 512%Z hop_size)
                       / inject_Z (default 22050%Z sr)))) /\
    ((Z.of_nat (length novelty_sf) * Z.abs (default 512 hop_size) < 2 ^ 63)%Z ->
     (0 < default 512 hop_size)%Z -> (0 < default 22050 sr)%Z ->
     increasing time_sf).
Proof.
  intros Hhop%in_int64_spec. rewrite (compute_time_sf_in_range _ _ _ _ Hhop).
  set (H := default 512%Z hop_size) in *. set (S := default 22050%Z sr).
  eexists. split_and!; [done | apply time_axis_length | | |].
  - intros HS Hn. eexists. split; [by apply time_axis_lookup|].
    rewrite true_divide_finite by done. simpl. unfold Qdiv. apply Qmult_0_l.
  - intros Hfit HS i Hi.
    by rewrite time_axis_lookup, (no_wrap _ _ _ Hfit Hi), true_divide_finite.
  - intros Hfit HH HS i j x y Hij Hi Hj.
    assert (j < length novelty_sf) as Hjn.
    { apply lookup_lt_Some in Hj. by rewrite time_axis_length in Hj. }
    rewrite time_axis_lookup in Hi, Hj by lia.
    rewrite (no_wrap _ i _ Hfit) in Hi by lia.
    rewrite (no_wrap _ j _ Hfit) in Hj by lia.
    injection Hi as <-. injection Hj as <-.
    rewrite !true_divide_finite by lia. simpl.
    apply Qdiv_lt_pos; [done|]. nia.
Qed.

Lemma compute_time_sf_axis_witness :
  exists time_sf : list float64,
    compute_time_sf [Finite 0; Finite 1; Finite 0] (Some 512%Z) (Some 44100%Z) [] =
      (Ok time_sf, []) /\
    time_sf !! 2 = Some (Finite (inject_Z 1024 / inject_Z 44100)) /\
    increasing time_sf.
Proof.
  destruct (compute_time_sf_axis [Finite 0; Finite 1; Finite 0]
              (Some 512%Z) (Some 44100%Z) [])
    as (time_sf & Hrun & _ & _ & Hi & Hinc).
  { simpl. lia. }
  exists time_sf. split_and!; [done | | ].
  - apply (Hi ltac:(simpl; lia) ltac:(done) 2). simpl. lia.
  - apply Hinc; simpl; lia.
Defined.

(** C4 as stated fails on the code.  A hop size of [2 ^ 63] is not an int64:
    the call raises OverflowError instead of returning.  A hop size of
    [2 ^ 62] makes the third product wrap to [- 2 ^ 63]: the element is not
    [2 * H / S] and the array is not increasing.  A hop size of 0 gives a
    constant array, which is not strictly increasing either. *)
Lemma compute_time_sf_axis_counterexample :
  compute_time_sf [Finite 0; Finite 0; Finite 0] (Some (2 ^ 63)%Z) (Some 1%Z) [] =
    (Raise OverflowError, []) /\
  (exists time_sf,
     compute_time_sf [Finite 0; Finite 0; Finite 0] (Some (2 ^ 62)%Z) (Some 1%Z) [] =
       (Ok time_sf, []) /\
     time_sf !! 2 = Some (Finite (inject_Z (- 2 ^ 63) / inject_Z 1)) /\
     ~ increasing time_sf) /\
  (exists time_sf,
     compute_time_sf [Finite 0; Finite 0; Finite 0] (Some 0%Z) (Some 1%Z) [] =
       (Ok time_sf, []) /\
     ~ increasing time_sf).
Proof.
  split_and!.
  - reflexivity.
  - eexists. split_and!; [reflexivity | reflexivity |].
    intros Hinc. specialize (Hinc 1 2 _ _ ltac:(lia) eq_refl eq_refl).
    vm_compute in Hinc. discriminate.
  - eexists. split; [reflexivity|].
    intros Hinc. specialize (Hinc 0 1 _ _ ltac:(lia) eq_refl eq_refl).
    vm_compute in Hinc. discriminate.
Qed.

(** C5. [compute_time_ml] always returns an array with one element per
    element of the novelty curve; for a non-zero rate [R] (100 when the
    argument is left out) element [i] is [i / R]. *)
Theorem compute_time_ml_axis (novelty_ml : list float64) (sr_ml : option Z)
    (h : heap) :
  exists time_ml : list float64,
    compute_time_ml novelty_ml sr_ml h = (Ok time_ml, h) /\
    length time_ml = length novelty_ml /\
    (default 100%Z sr_ml <> 0%Z ->
     forall i, i < length novelty_ml ->
       time_ml !! i =
         Some (Finite (inject_Z (Z.of_nat i) / inject_Z (default 100%Z sr_ml)))).
Proof.
  unfold compute_time_ml, ret. eexists. split_and!; [done | |].
  - unfold np_true_divide. by rewrite length_map, np_arange_length.
  - intros HR i Hi.
    rewrite np_true_divide_lookup, np_arange_lookup by done. simpl.
    by rewrite true_divide_finite.
Qed.

Lemma compute_time_ml_axis_witness :
  exists time_ml : list float64,
    compute_time_ml [Finite 0; Finite 1; Finite 0] None [] = (Ok time_ml, []) /\
    time_ml !! 2 = Some (Finite (inject_Z 2 / inject_Z 100)).
Proof.
  destruct (compute_time_ml_axis [Finite 0; Finite 1; Finite 0] None [])
    as (time_ml & Hrun & _ & Hi).
  exists time_ml. split; [done|].
  apply (Hi ltac:(done) 2). simpl. lia.
Defined.

(** ** [evaluate_estimated_beats] *)

Section EvaluateProofs.
Variable f_measure : list float64 -> list float64 -> result float64.

Lemma evaluate_estimated_beats_refines (h : heap) (data est : loc)
    (td : dict Track.t) (ed : dict (list float64)) :
  h !! data = Some (box td) -> h !! est = Some (box ed) ->
  exists ext res,
    evaluate_estimated_beats f_measure data est h = (res, h ++ ext) /\
    match res with
    | Ok r => exists v,
        foldM (evaluate_step f_measure td ed) (dict_keys td) [] = Ok v /\
        (h ++ ext) !! r = Some (DictFloat v)
    | Raise e => foldM (evaluate_step f_measure td ed) (dict_keys td) [] = Raise e
    end.
Proof.
  intros Hd He. unfold evaluate_estimated_beats.
  unfold new_dict, new, bind at 1. simpl.
  unfold bind at 1. rewrite (keys_at data td) by (by apply lookup_old).
  unfold bind at 1.
  pose proof (for_each_fold
    (fun cur hh => hh = h ++ [DictFloat cur])
    (fun hh => exists ext, hh = h ++ ext)
    (evaluate_step f_measure td ed)) as Hloop.
  match goal with |- context [for_each _ ?b] => specialize (Hloop b) end.
  lapply Hloop; clear Hloop.
  - intros Hloop. specialize (Hloop (dict_keys td) [] _ eq_refl).
    destruct (for_each _ _ _) as [[[]|e] h1].
    + destruct Hloop as (v & Hfold & ->). eexists _, (Ok _). split; [done|].
      exists v. split; [done | apply lookup_slot0].
    + destruct Hloop as (Hfold & ext & ->). by exists ext, (Raise e).
  - intros cur k hh ->. unfold bind, evaluate_step.
    rewrite (getitem_at data k td) by (by apply lookup_old).
    destruct (dict_get td k) as [track|]; [|by eauto].
    rewrite (getitem_at est k ed) by (by apply lookup_old).
    destruct (dict_get ed k) as [estimated|]; [|by eauto].
    unfold lift.
    destruct (f_measure _ _) as [score|e]; cbv beta iota; [|by eauto].
    rewrite (setitem_at _ _ _ cur) by apply lookup_slot0.
    rewrite insert_slot0. by eauto.
Qed.

Lemma foldM_app {A S} (f : S -> A -> result S) (xs ys : list A) (s : S) :
  foldM f (xs ++ ys) s =
    match foldM f xs s with
    | Ok s' => foldM f ys s'
    | Raise e => Raise e
    end.
Proof.
  revert s. induction xs as [|x xs IH]; intros s; simpl; [done|].
  by destruct (f s x).
Qed.

Lemma evaluate_fold_ok (td es : dict Track.t) (ed : dict (list float64))
    (cur : dict float64) :
  (forall k track, (k, track) ∈ es -> dict_get td k = Some track) ->
  NoDup (dict_keys es) ->
  (forall k, k ∈ dict_keys es -> k ∉ dict_keys cur) ->
  (forall k track, (k, track) ∈ es ->
     exists e x, dict_get ed k = Some e /\
                 f_measure (times (Track.beats track)) e = Ok x) ->
  exists v,
    foldM (evaluate_step f_measure td ed) (dict_keys es) cur = Ok (cur ++ v) /\
    Forall2 (scored f_measure ed) es v.
Proof.
  revert cur. induction es as [|[k track] es IH]; intros cur Htd Hnd Hcur Hok; simpl.
  - exists []. by rewrite app_nil_r.
  - simpl in Hnd. apply NoDup_cons in Hnd as [Hk Hnd].
    unfold evaluate_step at 1.
    rewrite (Htd k track) by apply list_elem_of_here.
    destruct (Hok k track) as (e & x & He & Hx); [apply list_elem_of_here|].
    rewrite He, Hx.
    rewrite dict_set_fresh by (apply Hcur; simpl; apply list_elem_of_here).
    destruct (IH (cur ++ [(k, x)])) as (v & Hfold & Hall).
    + intros k' track' Hin. apply Htd. by apply list_elem_of_further.
    + done.
    + intros k' Hin. rewrite dict_keys_app, elem_of_app. simpl.
      rewrite list_elem_of_singleton. intros [Hc| ->]; [|done].
      eapply Hcur; [|exact Hc]. simpl. by apply list_elem_of_further.
    + intros k' track' Hin. apply Hok. by apply list_elem_of_further.
    + exists ((k, x) :: v). rewrite Hfold, <- app_assoc. split; [done|].
      constructor; [|done]. split; [done|]. simpl. by eauto.
Qed.

Lemma evaluate_fold_absent (td : dict Track.t) (ed : dict (list float64))
    (ks : list string) (cur : dict float64) (k : string) :
  k ∈ ks -> dict_get ed k = None ->
  exists e, foldM (evaluate_step f_measure td ed) ks cur = Raise e.
Proof.
  intros Hin Hk. revert cur.
  induction ks as [|x ks IH]; intros cur; [by apply elem_of_nil in Hin|].
  simpl. destruct (evaluate_step f_measure td ed cur x) as [cur'|e] eqn:Hstep;
    [|by eauto].
  apply elem_of_cons in Hin as [->|Hin]; [|by apply IH].
  unfold evaluate_step in Hstep. rewrite Hk in Hstep.
  by destruct (dict_get td x).
Qed.
End EvaluateProofs.

(** C3. [evaluate_estimated_beats] visits the track identifiers of its first
    argument in order.  When every one of them has an estimate and the metric
    returns, the result maps each identifier to the F-measure of that track's
    reference beat times and its estimate.  An identifier of the first
    mapping that is absent from the second is never skipped: the call raises,
    and the exception is the KeyError of the first absent identifier when the
    tracks before it were scored. *)
Theorem evaluate_estimated_beats_lookup
    (f_measure : list float64 -> list float64 -> result float64)
    (h : heap) (data est : loc) (td : dict Track.t) (ed : dict (list float64)) :
  h !! data = Some (DictTrack td) ->
  h !! est = Some (DictArray ed) ->
  dict_wf td ->
  ((forall k track, (k, track) ∈ td ->
      exists e x, dict_get ed k = Some e /\
                  f_measure (times (Track.beats track)) e = Ok x) ->
   exists (r : loc) (h' : heap) (v : dict float64),
     evaluate_estimated_beats f_measure data est h = (Ok r, h') /\
     h' !! r = Some (DictFloat v) /\
     Forall2 (scored f_measure ed) td v) /\
  (forall k, k ∈ dict_keys td -> dict_get ed k = None ->
     exists e h', evaluate_estimated_beats f_measure data est h = (Raise e, h')) /\
  (forall pre k track post,
     td = pre ++ (k, track) :: post ->
     (forall k' track', (k', track') ∈ pre ->
        exists e x, dict_get ed k' = Some e /\
                    f_measure (times (Track.beats track')) e = Ok x) ->
     dict_get ed k = None ->
     exists h',
       evaluate_estimated_beats f_measure data est h = (Raise (KeyError k), h')).
Proof.
  intros Hd He Hwf.
  destruct (evaluate_estimated_beats_refines f_measure h data est td ed Hd He)
    as (ext & res & Hrun & Hres).
  split_and!.
  - intros Hok.
    destruct (evaluate_fold_ok f_measure td td ed []) as (v & Hfold & Hall);
      [by intros; apply dict_get_wf | done | by intros; apply not_elem_of_nil
      | done |].
    rewrite Hfold in Hres. destruct res as [r|e]; [|done].
    destruct Hres as (v' & [= <-] & Hr). by exists r, (h ++ ext), v.
  - intros k Hin Hk.
    destruct (evaluate_fold_absent f_measure td ed (dict_keys td) [] k Hin Hk)
      as [e Hfold].
    rewrite Hfold in Hres. destruct res as [r|e'].
    + by destruct Hres as (v & ? & _).
    + by exists e', (h ++ ext).
  - intros pre k track post Etd Hok Hk.
    assert (dict_wf pre) as Hpre.
    { unfold dict_wf in *. rewrite Etd, dict_keys_app in Hwf.
      by apply NoDup_app in Hwf as [? _]. }
    destruct (evaluate_fold_ok f_measure td pre ed []) as (v & Hfold & _);
      [|done | by intros; apply not_elem_of_nil | done |].
    { intros k' track' Hin. apply dict_get_wf; [done|].
      rewrite Etd. apply elem_of_app. by left. }
    assert (foldM (evaluate_step f_measure td ed) (dict_keys td) [] =
            Raise (KeyError k)) as Hraise.
    { rewrite Etd at 2. rewrite dict_keys_app, foldM_app, Hfold. simpl.
      unfold evaluate_step at 1. rewrite Hk.
      rewrite (dict_get_wf td k track); [done | done |].
      rewrite Etd. apply elem_of_app. right. apply list_elem_of_here. }
    rewrite Hraise in Hres. destruct res as [r|e'].
    + by destruct Hres as (v' & ? & _).
    + injection Hres as ->. by exists (h ++ ext).
Qed.

Lemma evaluate_estimated_beats_lookup_witness :
  (exists h',
     evaluate_estimated_beats (fun _ _ => Ok (Finite 1)) 1 0
       [DictArray [("t1", [Finite 1])];
        DictTrack [("t1", a_track "rock" 120); ("t2", a_track "jazz" 90)]]
     = (Raise (KeyError "t2"), h')) /\
  (exists r h',
     evaluate_estimated_beats (fun _ _ => Ok (Finite 1)) 1 0
       [DictArray [("t1", [Finite 1]); ("t2", [])];
        DictTrack [("t1", a_track "rock" 120); ("t2", a_track "jazz" 90)]]
     = (Ok r, h') /\
     h' !! r = Some (DictFloat [("t1", Finite 1); ("t2", Finite 1)])).
Proof.
  assert (dict_wf [("t1", a_track "rock" 120); ("t2", a_track "jazz" 90)]) as Hwf.
  { by apply (bool_decide_unpack (NoDup ["t1"; "t2"])). }
  split.
  - refine (proj2 (proj2 (evaluate_estimated_beats_lookup (fun _ _ => Ok (Finite 1))
      [DictArray [("t1", [Finite 1])];
       DictTrack [("t1", a_track "rock" 120); ("t2", a_track "jazz" 90)]]
      1 0 _ _ eq_refl eq_refl Hwf))
      [("t1", a_track "rock" 120)] "t2" (a_track "jazz" 90) [] eq_refl _ eq_refl).
    intros k' track' [[= -> ->]|Hin%elem_of_nil]%elem_of_cons; [|done].
      by exists [Finite 1], (Finite 1).
  - destruct (proj1 (evaluate_estimated_beats_lookup (fun _ _ => Ok (Finite 1))
      [DictArray [("t1", [Finite 1]); ("t2", [])];
       DictTrack [("t1", a_track "rock" 120); ("t2", a_track "jazz" 90)]]
      1 0 _ _ eq_refl eq_refl Hwf))
      as (r & h' & v & Hrun & Hr & Hall).
    + intros k track Hin. apply elem_of_cons in Hin as [[= -> ->]|Hin].
      { by exists [Finite 1], (Finite 1). }
      apply elem_of_cons in Hin as [[= -> ->]|Hin%elem_of_nil]; [|done].
      by exists [], (Finite 1).
    + exists r, h'. split; [done|]. rewrite Hr. do 2 f_equal.
      apply Forall2_cons_inv_l in Hall as ([k1 x1] & v1 & [Hk1 (e1 & _ & Hx1)] & Hall & ->).
      apply Forall2_cons_inv_l in Hall as ([k2 x2] & v2 & [Hk2 (e2 & _ & Hx2)] & Hall & ->).
      apply Forall2_nil_inv_l in Hall as ->.
      simpl in *. by simplify_eq.
Defined.

(** ** [estimate_beats_spectral_flux] *)

Lemma np_where_from_lookup (i : nat) (mask : list bool) (n : nat) (f : Z) :
  np_where_from i mask !! n = Some f ->
  exists j, f = Z.of_nat (i + j) /\ mask !! j = Some true.
Proof.
  revert i n. induction mask as [|b mask IH]; intros i n; simpl; [done|].
  destruct b.
  - destruct n as [|n]; simpl.
    + intros [= <-]. exists 0. split; [f_equal; lia | done].
    + intros (j & -> & Hj)%IH. exists (S j). split; [f_equal; lia | done].
  - intros (j & -> & Hj)%IH. exists (S j). split; [f_equal; lia | done].
Qed.



Lemma frames_to_time_lookup (frames : list Z) (sr hop : Z) (i : nat) :
  frames_to_time frames sr hop !! i =
    (fun f => true_divide (f * hop) sr) <$> frames !! i.
Proof.
  unfold frames_to_time. rewrite np_true_divide_lookup.
  change (map ?f ?l) with (f <$> l). rewrite list_lookup_fmap.
  by destruct (frames !! i).
Qed.

Lemma frames_to_time_length (frames : list Z) (sr hop : Z) :
  length (frames_to_time frames sr hop) = length frames.
Proof. unfold frames_to_time, np_true_divide. by rewrite !length_map. Qed.





(** ** [load_data] and [sonify_track_data] *)

(** C1 fails on the code.  [load_data] initialises "gtzan_genre" whatever
    dataset name it is given: with an initialiser that records its arguments,
    asking for "beatles" returns the handle of "gtzan_genre". *)
Theorem load_data_ignores_dataset_name :
  (forall (Dataset : Type)
          (mirdata_initialize : string -> string -> string -> result Dataset)
          (dataset_name data_home : string) (dataset_version : option string)
          (h : heap),
     load_data mirdata_initialize dataset_name data_home dataset_version h =
       (mirdata_initialize "gtzan_genre" data_home (default "mini" dataset_version), h)) /\
  load_data (fun name home version => Ok (name, home, version))
    "beatles" "/data" None [] =
    (Ok ("gtzan_genre", "/data", "mini"), []).
Proof.
  split; [|done].
  intros Dataset init name home version h. unfold load_data, bind, lift, ret.
  by destruct (init _ _ _).
Qed.

(** C9. [sonify_track_data] does nothing: for every track identifier and
    every pair of dictionaries it returns None and leaves the store as it
    was. *)
Theorem sonify_track_data_is_a_no_op (track_id : string)
    (estimated_beats tracks_dictionary : loc) (h : heap) :
  sonify_track_data track_id estimated_beats tracks_dictionary h = (Ok tt, h).
Proof. reflexivity. Qed.

(** * Further properties of the code *)

(** ** Unknown scored tracks *)

Lemma genre_tracks_fold_unknown (sd pre post : dict float64) (td : dict Track.t)
    (g k : string) (x : float64) :
  dict_wf sd ->
  sd = pre ++ (k, x) :: post ->
  (forall k', k' ∈ dict_keys pre -> k' ∈ dict_keys td) ->
  k ∉ dict_keys td ->
  foldM (genre_tracks_step sd td g) (dict_keys sd) [] = Raise (KeyError k).
Proof.
  intros Hwf Esd Hpre Hk.
  assert (NoDup (dict_keys pre)) as Hnd.
  { unfold dict_wf in Hwf. rewrite Esd, dict_keys_app in Hwf.
    by apply NoDup_app in Hwf as [? _]. }
  rewrite Esd at 2. rewrite dict_keys_app, foldM_app.
  rewrite (genre_tracks_fold sd pre td g []);
    [|intros k' v' Hin; apply dict_get_wf; [done|];
      rewrite Esd; apply elem_of_app; by left
     |done|done|by intros; apply not_elem_of_nil].
  simpl. unfold genre_tracks_step at 1.
  by rewrite (proj2 (dict_get_None td k) Hk).
Qed.

(** X1. With a non-empty tracks dictionary, a scored track that is not a
    key of it makes [split_by_genre] raise the KeyError of the first such
    track in the order of the scores dictionary; no object that existed
    before the call is changed. *)
Theorem split_by_genre_unknown_track (h : heap) (s t : loc)
    (sd pre post : dict float64) (td : dict Track.t) (k : string) (x : float64) :
  h !! s = Some (DictFloat sd) ->
  h !! t = Some (DictTrack td) ->
  dict_wf sd -> dict_wf td ->
  td <> [] ->
  sd = pre ++ (k, x) :: post ->
  (forall k', k' ∈ dict_keys pre -> k' ∈ dict_keys td) ->
  k ∉ dict_keys td ->
  exists h',
    split_by_genre s t h = (Raise (KeyError k), h') /\ h `prefix_of` h'.
Proof.
  intros Hs Ht Hsd Htd Hne Esd Hpre Hk.
  destruct (split_by_genre_refines h s t sd td Hs Ht) as (ext & res & Hrun & Hres).
  assert (split_by_genre_value sd td = Raise (KeyError k)) as Hval.
  { unfold split_by_genre_value.
    rewrite (genres_fold td td []) by (by intros; apply dict_get_wf).
    simpl. rewrite filter_all by (intros g; apply not_elem_of_nil).
    destruct td as [|[k0 track0] td']; [done|]. simpl.
    unfold genre_scores_step at 1.
    by rewrite (genre_tracks_fold_unknown sd pre post _ _ k x). }
  rewrite Hval in Hres. destruct res as [r|e].
  - by destruct Hres as (v & ? & _).
  - injection Hres as ->. exists (h ++ ext). split; [done | by apply prefix_app_r].
Qed.

Lemma split_by_genre_unknown_track_witness :
  exists h',
    split_by_genre 0 1 with_unknown_score = (Raise (KeyError "t9"), h') /\
    with_unknown_score `prefix_of` h'.
Proof.
  apply (split_by_genre_unknown_track with_unknown_score 0 1 _
           [("t1", Finite (1 # 2))] [("t3", Finite 1)] _ "t9" (Finite (4 # 5))
           eq_refl eq_refl).
  - by apply (bool_decide_unpack (NoDup ["t1"; "t9"; "t3"])).
  - by apply (bool_decide_unpack (NoDup ["t1"; "t3"])).
  - done.
  - done.
  - intros k' Hk'. apply (bool_decide_unpack _).
    revert k' Hk'. apply Forall_forall. by repeat constructor.
  - by apply (bool_decide_unpack ("t9" ∉ ["t1"; "t3"])).
Defined.

(** X2. With an empty tracks dictionary [split_by_genre] returns an empty
    dictionary whatever the scores dictionary holds: no genre is ever seen,
    so no score is looked up, none is kept and no KeyError is raised. *)
Theorem split_by_genre_no_tracks (h : heap) (s t : loc) (sd : dict float64) :
  h !! s = Some (DictFloat sd) ->
  h !! t = Some (DictTrack []) ->
  exists r h',
    split_by_genre s t h = (Ok r, h') /\
    genre_scores_at h' r [] /\
    h `prefix_of` h'.
Proof.
  intros Hs Ht.
  destruct (split_by_genre_refines h s t sd [] Hs Ht) as (ext & res & Hrun & Hres).
  destruct res as [r|e]; [|done].
  destruct Hres as (v & [= <-] & Hat).
  exists r, (h ++ ext). split_and!; [done | done | by apply prefix_app_r].
Qed.

Lemma split_by_genre_no_tracks_witness :
  exists r h',
    split_by_genre 0 1 [DictFloat [("t1", Finite 1)]; DictTrack []] = (Ok r, h') /\
    genre_scores_at h' r [] /\
    [DictFloat [("t1", Finite 1)]; DictTrack []] `prefix_of` h'.
Proof.
  exact (split_by_genre_no_tracks [DictFloat [("t1", Finite 1)]; DictTrack []]
           0 1 _ eq_refl eq_refl).
Defined.

(** X3. A scored track that is not a key of the tracks dictionary makes
    [get_tempo_vs_performance] raise the KeyError of the first such track in
    the order of the scores dictionary: no partial arrays are returned, and
    no object that existed before the call is changed. *)
Theorem get_tempo_vs_performance_unknown_track (h : heap) (s t : loc)
    (sd pre post : dict float64) (td : dict Track.t) (k : string) (x : float64) :
  h !! s = Some (DictFloat sd) ->
  h !! t = Some (DictTrack td) ->
  dict_wf sd ->
  sd = pre ++ (k, x) :: post ->
  (forall k', k' ∈ dict_keys pre -> k' ∈ dict_keys td) ->
  k ∉ dict_keys td ->
  exists h',
    get_tempo_vs_performance s t h = (Raise (KeyError k), h') /\
    h `prefix_of` h'.
Proof.
  intros Hs Ht Hwf Esd Hpre Hk.
  destruct (get_tempo_vs_performance_refines h s t sd td Hs Ht) as [ext Hrun].
  destruct (tempo_fold sd td pre [] []) as (ts & Hfold & _); [|done|].
  { intros k' v' Hin. apply dict_get_wf; [done|].
    rewrite Esd. apply elem_of_app. by left. }
  assert (get_tempo_vs_performance_value sd td = Raise (KeyError k)) as Hval.
  { unfold get_tempo_vs_performance_value.
    rewrite Esd at 2. rewrite dict_keys_app, foldM_app, Hfold. simpl.
    unfold tempo_step at 1. by rewrite (proj2 (dict_get_None td k) Hk). }
  rewrite Hval in Hrun. exists (h ++ ext). split; [done | by apply prefix_app_r].
Qed.

Lemma get_tempo_vs_performance_unknown_track_witness :
  exists h',
    get_tempo_vs_performance 0 1 with_unknown_score = (Raise (KeyError "t9"), h') /\
    with_unknown_score `prefix_of` h'.
Proof.
  apply (get_tempo_vs_performance_unknown_track with_unknown_score 0 1 _
           [("t1", Finite (1 # 2))] [("t3", Finite 1)] _ "t9" (Finite (4 # 5))
           eq_refl eq_refl).
  - by apply (bool_decide_unpack (NoDup ["t1"; "t9"; "t3"])).
  - done.
  - intros k' Hk'. apply (bool_decide_unpack _).
    revert k' Hk'. apply Forall_forall. by repeat constructor.
  - by apply (bool_decide_unpack ("t9" ∉ ["t1"; "t3"])).
Defined.

(** ** More on [evaluate_estimated_beats] *)

(** X4. An exception of the metric is not caught: when the tracks before
    one were scored and the metric raises on that one,
    [evaluate_estimated_beats] raises the same exception and returns no
    scores. *)
Theorem evaluate_estimated_beats_metric_failure
    (f_measure : list float64 -> list float64 -> result float64)
    (h : heap) (data est : loc) (td pre post : dict Track.t)
    (ed : dict (list float64)) (k : string) (track : Track.t)
    (estimated : list float64) (err : exn) :
  h !! data = Some (DictTrack td) ->
  h !! est = Some (DictArray ed) ->
  dict_wf td ->
  td = pre ++ (k, track) :: post ->
  (forall k' track', (k', track') ∈ pre ->
     exists e x, dict_get ed k' = Some e /\
                 f_measure (times (Track.beats track')) e = Ok x) ->
  dict_get ed k = Some estimated ->
  f_measure (times (Track.beats track)) estimated = Raise err ->
  exists h',
    evaluate_estimated_beats f_measure data est h = (Raise err, h') /\
    h `prefix_of` h'.
Proof.
  intros Hd He Hwf Etd Hpre Hk Herr.
  destruct (evaluate_estimated_beats_refines f_measure h data est td ed Hd He)
    as (ext & res & Hrun & Hres).
  assert (dict_wf pre) as Hwf'.
  { unfold dict_wf in *. rewrite Etd, dict_keys_app in Hwf.
    by apply NoDup_app in Hwf as [? _]. }
  destruct (evaluate_fold_ok f_measure td pre ed []) as (v & Hfold & _);
    [|done | by intros; apply not_elem_of_nil | done |].
  { intros k' track' Hin. apply dict_get_wf; [done|].
    rewrite Etd. apply elem_of_app. by left. }
  assert (foldM (evaluate_step f_measure td ed) (dict_keys td) [] = Raise err)
    as Hraise.
  { rewrite Etd at 2. rewrite dict_keys_app, foldM_app, Hfold. simpl.
    unfold evaluate_step at 1.
    rewrite (dict_get_wf td k track), Hk, Herr; [done | done |].
    rewrite Etd. apply elem_of_app. right. apply list_elem_of_here. }
  rewrite Hraise in Hres. destruct res as [r|e].
  - by destruct Hres as (v' & ? & _).
  - injection Hres as ->. exists (h ++ ext). split; [done | by apply prefix_app_r].
Qed.

Lemma evaluate_estimated_beats_metric_failure_witness :
  exists h',
    evaluate_estimated_beats
      (fun reference estimated =>
         match estimated with
         | [] => Raise (External "ValueError")
         | _ => Ok (Finite 1)
         end) 0 1 with_estimates
    = (Raise (External "ValueError"), h') /\
    with_estimates `prefix_of` h'.
Proof.
  apply (evaluate_estimated_beats_metric_failure _ with_estimates 0 1 _
           [("t1", a_track "rock" 120)] [("t3", a_track "jazz" 100)] _
           "t2" (a_track "rock" 90) [] (External "ValueError") eq_refl eq_refl).
  - by apply (bool_decide_unpack (NoDup ["t1"; "t2"; "t3"])).
  - done.
  - intros k' track' [[= -> ->]|Hin%elem_of_nil]%elem_of_cons; [|done].
    by exists [Finite 1], (Finite 1).
  - done.
  - done.
Defined.

Lemma evaluate_fold_agree
    (f_measure : list float64 -> list float64 -> result float64)
    (td : dict Track.t) (ed1 ed2 : dict (list float64))
    (ks : list string) (cur : dict float64) :
  (forall k, k ∈ ks -> dict_get ed1 k = dict_get ed2 k) ->
  foldM (evaluate_step f_measure td ed1) ks cur =
  foldM (evaluate_step f_measure td ed2) ks cur.
Proof.
  revert cur. induction ks as [|k ks IH]; intros cur Hagree; simpl; [done|].
  assert (evaluate_step f_measure td ed1 cur k =
          evaluate_step f_measure td ed2 cur k) as ->.
  { unfold evaluate_step. by rewrite (Hagree k) by apply list_elem_of_here. }
  destruct (evaluate_step f_measure td ed2 cur k); [|done].
  apply IH. intros k' Hin. apply Hagree. by apply list_elem_of_further.
Qed.

(** X5. Only the estimates of the tracks of the first mapping matter to
    [evaluate_estimated_beats]: two estimate dictionaries that agree on the
    identifiers of the first mapping give the same outcome, the same
    exception or the same scores, whatever else they hold. *)
Theorem evaluate_estimated_beats_ignores_other_estimates
    (f_measure : list float64 -> list float64 -> result float64)
    (h1 h2 : heap) (data1 est1 data2 est2 : loc)
    (td : dict Track.t) (ed1 ed2 : dict (list float64)) :
  h1 !! data1 = Some (DictTrack td) -> h1 !! est1 = Some (DictArray ed1) ->
  h2 !! data2 = Some (DictTrack td) -> h2 !! est2 = Some (DictArray ed2) ->
  (forall k, k ∈ dict_keys td -> dict_get ed1 k = dict_get ed2 k) ->
  match (evaluate_estimated_beats f_measure data1 est1 h1).1,
        (evaluate_estimated_beats f_measure data2 est2 h2).1 with
  | Ok r1, Ok r2 =>
      exists v,
        scores_at (evaluate_estimated_beats f_measure data1 est1 h1).2 r1 v /\
        scores_at (evaluate_estimated_beats f_measure data2 est2 h2).2 r2 v
  | Raise e1, Raise e2 => e1 = e2
  | _, _ => False
  end.
Proof.
  intros Hd1 He1 Hd2 He2 Hagree.
  destruct (evaluate_estimated_beats_refines f_measure h1 data1 est1 td ed1 Hd1 He1)
    as (ext1 & res1 & -> & Hres1).
  destruct (evaluate_estimated_beats_refines f_measure h2 data2 est2 td ed2 Hd2 He2)
    as (ext2 & res2 & -> & Hres2).
  rewrite (evaluate_fold_agree f_measure td ed1 ed2 _ _ Hagree) in Hres1.
  simpl. destruct res1 as [r1|e1], res2 as [r2|e2].
  - destruct Hres1 as (v1 & Hv1 & Hat1), Hres2 as (v2 & Hv2 & Hat2).
    exists v1. split; [done|]. rewrite Hv1 in Hv2. by injection Hv2 as ->.
  - destruct Hres1 as (v1 & Hv1 & _). congruence.
  - destruct Hres2 as (v2 & Hv2 & _). congruence.
  - congruence.
Qed.

Lemma evaluate_estimated_beats_ignores_other_estimates_witness :
  match (evaluate_estimated_beats (fun _ _ => Ok (Finite 1)) 0 1 with_estimates).1,
        (evaluate_estimated_beats (fun _ _ => Ok (Finite 1)) 0 1
           with_reordered_estimates).1 with
  | Ok r1, Ok r2 =>
      exists v,
        scores_at (evaluate_estimated_beats (fun _ _ => Ok (Finite 1)) 0 1
                     with_estimates).2 r1 v /\
        scores_at (evaluate_estimated_beats (fun _ _ => Ok (Finite 1)) 0 1
                     with_reordered_estimates).2 r2 v
  | Raise e1, Raise e2 => e1 = e2
  | _, _ => False
  end.
Proof.
  apply (evaluate_estimated_beats_ignores_other_estimates (fun _ _ => Ok (Finite 1))
           with_estimates with_reordered_estimates 0 1 0 1 _ _ _
           eq_refl eq_refl eq_refl eq_refl).
  intros k Hk. revert k Hk. apply Forall_forall. by repeat constructor.
Defined.

Lemma evaluate_estimated_beats_returns_new
    (f_measure : list float64 -> list float64 -> result float64)
    (h h' : heap) (data est r : loc) :
  evaluate_estimated_beats f_measure data est h = (Ok r, h') -> r = length h.
Proof.
  unfold evaluate_estimated_beats, new_dict, new, bind. simpl.
  destruct (keys Track.t data _) as [[ks|e] h1]; [|done].
  destruct (for_each ks _ h1) as [[[]|e] h2]; [|done].
  unfold ret. by intros [= <- _].
Qed.

(** X6. [evaluate_estimated_beats] builds its result in a new object and
    reads its arguments only: the returned reference was not in use before
    the call (so it is neither argument), every object that existed before
    is unchanged, and a second call on the store the first one left ends the
    same way, with the same exception or the same scores. *)
Theorem evaluate_estimated_beats_is_pure
    (f_measure : list float64 -> list float64 -> result float64)
    (h : heap) (data est : loc) (td : dict Track.t) (ed : dict (list float64)) :
  h !! data = Some (DictTrack td) ->
  h !! est = Some (DictArray ed) ->
  repeatable scores_at (evaluate_estimated_beats f_measure data est) h /\
  (forall r h', evaluate_estimated_beats f_measure data est h = (Ok r, h') ->
     h !! r = None /\ r <> data /\ r <> est).
Proof.
  intros Hd He. split.
  - unfold repeatable.
    destruct (evaluate_estimated_beats_refines f_measure h data est td ed Hd He)
      as (ext1 & res1 & -> & H1).
    simpl.
    destruct (evaluate_estimated_beats_refines f_measure (h ++ ext1) data est td ed)
      as (ext2 & res2 & -> & H2); [by apply lookup_old..|].
    simpl. split; [by apply prefix_app_r|].
    destruct res1 as [r1|e1], res2 as [r2|e2].
    + destruct H1 as (v1 & Hv1 & Hat1), H2 as (v2 & Hv2 & Hat2).
      exists v1. split; [done|]. rewrite Hv1 in Hv2. by injection Hv2 as ->.
    + destruct H1 as (v1 & Hv1 & _). congruence.
    + destruct H2 as (v2 & Hv2 & _). congruence.
    + congruence.
  - intros r h' ->%evaluate_estimated_beats_returns_new.
    apply lookup_lt_Some in Hd, He.
    split_and!; [by apply lookup_ge_None | lia | lia].
Qed.

Lemma evaluate_estimated_beats_is_pure_witness :
  repeatable scores_at
    (evaluate_estimated_beats (fun _ _ => Ok (Finite 1)) 0 1) with_estimates /\
  (forall r h',
     evaluate_estimated_beats (fun _ _ => Ok (Finite 1)) 0 1 with_estimates
       = (Ok r, h') ->
     with_estimates !! r = None /\ r <> 0 /\ r <> 1).
Proof.
  exact (evaluate_estimated_beats_is_pure (fun _ _ => Ok (Finite 1))
           with_estimates 0 1 _ _ eq_refl eq_refl).
Defined.

(** ** More on the time axes *)

Lemma inject_Z_nonzero (z : Z) : z <> 0%Z -> ~ (inject_Z z == 0)%Q.
Proof. intros Hz Hq. apply Hz. by apply (inject_Z_injective z 0). Qed.

(** X8. The two axes agree on a common grid.  For a non-zero hop [H] and a
    non-zero rate [R], as long as [H], the products [i * H] and the rate
    [H * R] stay within [2 ^ 53] (where int64 does not wrap and float64
    holds the integers exactly), [compute_time_sf] at hop [H] and sample rate
    [H * R] gives, element by element, the values [compute_time_ml] gives at
    rate [R] (hop 441 at 44100 Hz is the 100 Hz axis). *)
Theorem time_axes_agree (novelty : list float64) (H R : Z) (h : heap) :
  H <> 0%Z -> R <> 0%Z ->
  (Z.abs H <= 2 ^ 53)%Z ->
  (Z.of_nat (length novelty) * Z.abs H <= 2 ^ 53)%Z ->
  (Z.abs (H * R) <= 2 ^ 53)%Z ->
  exists time_sf time_ml : list float64,
    compute_time_sf novelty (Some H) (Some (H * R)%Z) h = (Ok time_sf, h) /\
    compute_time_ml novelty (Some R) h = (Ok time_ml, h) /\
    Forall2 f64_eq time_sf time_ml.
Proof.
  intros HH HR Hhop Hfit _.
  rewrite compute_time_sf_in_range by (apply in_int64_spec; simpl; lia).
  unfold compute_time_ml, ret. simpl.
  eexists _, _. split_and!; [done | done |].
  apply Forall2_same_length_lookup_2.
  - rewrite time_axis_length. unfold np_true_divide.
    by rewrite length_map, np_arange_length.
  - intros i x y Hx Hy.
    assert (i < length novelty) as Hi.
    { apply lookup_lt_Some in Hx. by rewrite time_axis_length in Hx. }
    rewrite time_axis_lookup in Hx by done.
    rewrite (no_wrap (length novelty)) in Hx by (done || lia).
    rewrite np_true_divide_lookup, np_arange_lookup in Hy by done.
    injection Hx as <-. injection Hy as <-.
    rewrite !true_divide_finite by lia. simpl.
    rewrite !inject_Z_mult. field.
    split; by apply inject_Z_nonzero.
Qed.

Lemma time_axes_agree_witness :
  exists time_sf time_ml : list float64,
    compute_time_sf [Finite 0; Finite 1] (Some 441%Z) (Some (441 * 100)%Z) []
      = (Ok time_sf, []) /\
    compute_time_ml [Finite 0; Finite 1] (Some 100%Z) [] = (Ok time_ml, []) /\
    Forall2 f64_eq time_sf time_ml.
Proof.
  apply (time_axes_agree [Finite 0; Finite 1] 441 100 []);
    [done | done | by apply Z.leb_le .. ].
Defined.

(** X9. A zero rate is no error for either axis: the call returns an array of
    the length of the novelty curve whose first element is NaN and whose
    other elements are +inf (for [compute_time_sf], when the hop size is
    positive and no product [i * hop_size] leaves int64). *)
Theorem time_axes_zero_rate :
  (forall (novelty_sf : list float64) (hop_size : option Z) (h : heap),
     (0 < default 512 hop_size)%Z ->
     (default 512 hop_size < 2 ^ 63)%Z ->
     (Z.of_nat (length novelty_sf) * default 512 hop_size < 2 ^ 63)%Z ->
     exists time_sf,
       compute_time_sf novelty_sf hop_size (Some 0%Z) h = (Ok time_sf, h) /\
       length time_sf = length novelty_sf /\
       forall i, i < length novelty_sf ->
         time_sf !! i = Some (match i with 0 => NotANumber | _ => PosInf end)) /\
  (forall (novelty_ml : list float64) (h : heap),
     exists time_ml,
       compute_time_ml novelty_ml (Some 0%Z) h = (Ok time_ml, h) /\
       length time_ml = length novelty_ml /\
       forall i, i < length novelty_ml ->
         time_ml !! i = Some (match i with 0 => NotANumber | _ => PosInf end)).
Proof.
  split.
  - intros novelty_sf hop_size h Hhop Hmax Hfit.
    rewrite compute_time_sf_in_range by (apply in_int64_spec; lia). simpl.
    eexists. split_and!; [done | apply time_axis_length |].
    intros i Hi. rewrite time_axis_lookup by done.
    rewrite (no_wrap (length novelty_sf)) by (done || lia). f_equal.
    unfold true_divide. simpl. destruct i as [|i]; [done|].
    destruct (Z.eqb_spec (Z.of_nat (S i) * default 512%Z hop_size) 0) as [E|_]; [nia|].
    destruct (Z.ltb_spec 0 (Z.of_nat (S i) * default 512%Z hop_size)); [done | nia].
  - intros novelty_ml h. unfold compute_time_ml, ret. simpl.
    eexists. split_and!; [done | |].
    + unfold np_true_divide. by rewrite length_map, np_arange_length.
    + intros i Hi. rewrite np_true_divide_lookup, np_arange_lookup by done.
      simpl. f_equal. by destruct i.
Qed.

Lemma time_axes_zero_rate_witness :
  exists time_sf,
    compute_time_sf [Finite 0; Finite 1; Finite 0] None (Some 0%Z) []
      = (Ok time_sf, []) /\
    length time_sf = 3 /\
    forall i, i < 3 ->
      time_sf !! i = Some (match i with 0 => NotANumber | _ => PosInf end).
Proof.
  apply (proj1 time_axes_zero_rate [Finite 0; Finite 1; Finite 0] None []);
    by apply Z.ltb_lt.
Defined.

(** ** Beat times and the time axis *)

(** X10. The beat times of [estimate_beats_spectral_flux] are points of the
    time axis of the novelty curve it returns: when the local-maximum mask
    is no longer than that curve, the hop length is an int64 and no product
    [i * hop_length] of the axis leaves int64, every beat time is an element
    of [compute_time_sf] of the curve at the same hop length and the file's
    sampling rate. *)
Theorem beat_times_on_time_axis
    (librosa_load : string -> result (list float64 * Z))
    (onset_strength : list float64 -> Z -> Z -> result (list float64))
    (plp : list float64 -> Z -> Z -> list float64 -> result (list float64))
    (localmax : list float64 -> list bool)
    (audio_path : string) (hop_length : option Z) (h : heap)
    (y : list float64) (sr : Z) (activation pulse : list float64) :
  librosa_load audio_path = Ok (y, sr) ->
  onset_strength y sr (default 512%Z hop_length) = Ok activation ->
  plp y sr (default 512%Z hop_length) activation = Ok pulse ->
  length (localmax pulse) <= length activation ->
  (- 2 ^ 63 <= default 512 hop_length < 2 ^ 63)%Z ->
  (Z.of_nat (length activation) * Z.abs (default 512 hop_length) < 2 ^ 63)%Z ->
  exists beat_times time_sf : list float64,
    estimate_beats_spectral_flux librosa_load onset_strength plp localmax
      audio_path hop_length h = (Ok (beat_times, activation), h) /\
    compute_time_sf activation hop_length (Some sr) h = (Ok time_sf, h) /\
    forall x, x ∈ beat_times -> x ∈ time_sf.
Proof.
  intros Hload Honset Hplp Hlen Hhop%in_int64_spec Hfit.
  rewrite (compute_time_sf_in_range _ _ _ _ Hhop).
  unfold estimate_beats_spectral_flux, bind, lift, ret.
  rewrite Hload, Honset, Hplp. simpl.
  set (hop := default 512%Z hop_length) in *.
  eexists _, _. split_and!; [done | done |].
  intros x (i & Hi)%list_elem_of_lookup.
  rewrite frames_to_time_lookup in Hi.
  destruct (np_where (localmax pulse) !! i) as [f|] eqn:Hf; [|done].
  injection Hi as <-.
  apply np_where_from_lookup in Hf as (j & -> & Hj).
  apply lookup_lt_Some in Hj.
  apply list_elem_of_lookup. exists j.
  rewrite time_axis_lookup by lia.
  by rewrite (no_wrap (length activation)) by (done || lia).
Qed.

Lemma beat_times_on_time_axis_witness :
  exists beat_times time_sf : list float64,
    estimate_beats_spectral_flux
      (fun _ => Ok ([Finite 0; Finite 1; Finite 0; Finite 1], 2%Z))
      (fun _ _ _ => Ok [Finite 0; Finite 1; Finite 0])
      (fun _ _ _ envelope => Ok envelope)
      (fun _ => [false; true; false])
      "track.wav" (Some 2%Z) []
    = (Ok (beat_times, [Finite 0; Finite 1; Finite 0]), []) /\
    compute_time_sf [Finite 0; Finite 1; Finite 0] (Some 2%Z) (Some 2%Z) []
      = (Ok time_sf, []) /\
    forall x, x ∈ beat_times -> x ∈ time_sf.
Proof.
  apply (beat_times_on_time_axis
    (fun _ => Ok ([Finite 0; Finite 1; Finite 0; Finite 1], 2%Z))
    (fun _ _ _ => Ok [Finite 0; Finite 1; Finite 0])
    (fun _ _ _ envelope => Ok envelope)
    (fun _ => [false; true; false])
    "track.wav" (Some 2%Z) [] _ _ _ [Finite 0; Finite 1; Finite 0]
    eq_refl eq_refl eq_refl).
  - simpl. lia.
  - simpl. lia.
  - by apply Z.ltb_lt.
Defined.

(** ** Counting the scores of a partition *)

Lemma sum_list_map_add {A} (a b : A -> nat) (l : list A) :
  sum_list (map (fun x => a x + b x) l) = sum_list (map a l) + sum_list (map b l).
Proof. induction l as [|x l IH]; simpl; lia. Qed.

Lemma sum_list_indicator (gs : list string) (g0 : string) :
  NoDup gs -> g0 ∈ gs ->
  sum_list (map (fun g => if decide (Some g0 = Some g) then 1 else 0) gs) = 1.
Proof.
  induction gs as [|g gs IH]; intros Hnd Hin; [by apply elem_of_nil in Hin|].
  apply NoDup_cons in Hnd as [Hg Hnd]. simpl.
  destruct (decide (Some g0 = Some g)) as [[= ->]|Hne].
  - f_equal. clear IH Hin. induction gs as [|g' gs IH]; [done|]. simpl.
    apply not_elem_of_cons in Hg as [Hne Hg]. apply NoDup_cons in Hnd as [_ Hnd].
    rewrite decide_False by congruence. by apply IH.
  - apply elem_of_cons in Hin as [->|Hin]; [done|]. by rewrite IH.
Qed.

(** Every score falls under exactly one of the genres. *)
Lemma scores_of_genre_total (sd : dict float64) (td : dict Track.t)
    (gs : list string) :
  NoDup gs ->
  (forall e, e ∈ sd -> exists g, genre_of td e.1 = Some g /\ g ∈ gs) ->
  sum_list (map (fun g => length (scores_of_genre sd td g)) gs) = length sd.
Proof.
  intros Hnd. unfold scores_of_genre.
  induction sd as [|e sd IH]; intros Hall.
  - clear Hnd Hall. induction gs as [|g gs IH]; [done | exact IH].
  - destruct (Hall e) as (g0 & Hg0 & Hin); [apply list_elem_of_here|].
    rewrite (map_ext _ (fun g => (if decide (Some g0 = Some g) then 1 else 0) +
                                 length (filter (fun e => genre_of td e.1 = Some g) sd))).
    + rewrite sum_list_map_add, sum_list_indicator, IH; [done | | done | done].
      intros e' He'. apply Hall. by apply list_elem_of_further.
    + intros g. rewrite filter_cons, Hg0.
      by destruct (decide (Some g0 = Some g)).
Qed.

Lemma split_by_genre_total (sd : dict float64) (td : dict Track.t) :
  (forall k, k ∈ dict_keys sd -> k ∈ dict_keys td) ->
  total_scores (map (fun g => (g, scores_of_genre sd td g))
                    (first_seen (map (fun e => Track.genre e.2) td))) = length sd.
Proof.
  intros Hkeys. unfold total_scores. rewrite map_map. simpl.
  apply scores_of_genre_total; [apply NoDup_first_seen|].
  intros [k x] Hin. simpl.
  destruct (proj2 (dict_get_is_Some td k)) as [track Htrack].
  { apply Hkeys, list_elem_of_In, in_map_iff. exists (k, x).
    split; [done | by apply list_elem_of_In]. }
  exists (Track.genre track). split.
  - unfold genre_of. by rewrite Htrack.
  - by eapply elem_of_genres.
Qed.

Lemma scores_of_genre_skip (sd : dict float64) (td : dict Track.t)
    (gs : list string) (e : string * float64) (g0 : string) :
  genre_of td e.1 = Some g0 -> g0 ∉ gs ->
  map (fun g => scores_of_genre (e :: sd) td g) gs =
  map (fun g => scores_of_genre sd td g) gs.
Proof.
  intros Hg0 Hnot. induction gs as [|g gs IH]; [done|].
  apply not_elem_of_cons in Hnot as [Hne Hnot]. simpl. f_equal; [|by apply IH].
  unfold scores_of_genre. rewrite filter_cons_False; [done|].
  rewrite Hg0. congruence.
Qed.

Lemma scores_of_genre_place (sd : dict float64) (td : dict Track.t)
    (gs : list string) (e : string * float64) (g0 : string) :
  genre_of td e.1 = Some g0 -> NoDup gs -> g0 ∈ gs ->
  concat (map (fun g => scores_of_genre (e :: sd) td g) gs) ≡ₚ
  e :: concat (map (fun g => scores_of_genre sd td g) gs).
Proof.
  intros Hg0. induction gs as [|g gs IH]; intros Hnd Hin.
  - by apply elem_of_nil in Hin.
  - apply NoDup_cons in Hnd as [Hg Hnd]. simpl.
    destruct (decide (g = g0)) as [->|Hne].
    + rewrite (scores_of_genre_skip sd td gs e g0) by done.
      unfold scores_of_genre at 1. by rewrite filter_cons_True.
    + apply elem_of_cons in Hin as [->|Hin]; [done|].
      rewrite (IH Hnd Hin).
      unfold scores_of_genre at 1.
      rewrite filter_cons_False by (rewrite Hg0; congruence).
      fold (scores_of_genre sd td g).
      by rewrite Permutation_middle.
Qed.

(** The sub-mappings of the genres, put together, are the scores dictionary
    up to order. *)
Lemma scores_of_genre_concat (sd : dict float64) (td : dict Track.t)
    (gs : list string) :
  NoDup gs ->
  (forall e, e ∈ sd -> exists g, genre_of td e.1 = Some g /\ g ∈ gs) ->
  concat (map (fun g => scores_of_genre sd td g) gs) ≡ₚ sd.
Proof.
  intros Hnd. induction sd as [|e sd IH]; intros Hall.
  - clear. induction gs as [|g gs IH]; [done | exact IH].
  - destruct (Hall e) as (g0 & Hg0 & Hin); [apply list_elem_of_here|].
    rewrite (scores_of_genre_place sd td gs e g0) by done.
    f_equiv. apply IH. intros e' He'. apply Hall. by apply list_elem_of_further.
Qed.

Lemma split_by_genre_concat (sd : dict float64) (td : dict Track.t) :
  (forall k, k ∈ dict_keys sd -> k ∈ dict_keys td) ->
  concat (map snd (map (fun g => (g, scores_of_genre sd td g))
                       (first_seen (map (fun e => Track.genre e.2) td)))) ≡ₚ sd.
Proof.
  intros Hkeys. rewrite map_map. simpl.
  apply scores_of_genre_concat; [apply NoDup_first_seen|].
  intros [k x] Hin. simpl.
  destruct (proj2 (dict_get_is_Some td k)) as [track Htrack].
  { apply Hkeys, list_elem_of_In, in_map_iff. exists (k, x).
    split; [done | by apply list_elem_of_In]. }
  exists (Track.genre track). split.
  - unfold genre_of. by rewrite Htrack.
  - by eapply elem_of_genres.
Qed.

Lemma split_by_genre_placed (sd : dict float64) (td : dict Track.t)
    (gs : list string) (g : string) (m : dict float64) (k : string) (x : float64) :
  (g, m) ∈ map (fun g => (g, scores_of_genre sd td g)) gs ->
  (k, x) ∈ m -> genre_of td k = Some g.
Proof.
  intros (g' & [= -> <-] & _)%list_elem_of_In%in_map_iff.
  by intros [Hg _]%list_elem_of_filter.
Qed.

(** X11. [split_by_genre] neither loses nor duplicates a score: on
    well-formed dictionaries where every scored track is known, the genre
    keys of the result are distinct, every entry of a sub-mapping belongs to
    a track of that genre, and the sub-mappings put together are exactly the
    entries of the scores dictionary, each one once (so their sizes add up
    to its size). *)
Theorem split_by_genre_keeps_every_score (h : heap) (s t : loc)
    (sd : dict float64) (td : dict Track.t) :
  h !! s = Some (DictFloat sd) ->
  h !! t = Some (DictTrack td) ->
  dict_wf sd -> dict_wf td ->
  (forall k, k ∈ dict_keys sd -> k ∈ dict_keys td) ->
  exists (r : loc) (h' : heap) (v : dict (dict float64)),
    split_by_genre s t h = (Ok r, h') /\
    genre_scores_at h' r v /\
    NoDup (dict_keys v) /\
    (forall g m k x, (g, m) ∈ v -> (k, x) ∈ m -> genre_of td k = Some g) /\
    concat (map snd v) ≡ₚ sd /\
    total_scores v = length sd.
Proof.
  intros Hs Ht Hsd Htd Hkeys.
  destruct (split_by_genre_run h s t sd td Hs Ht Hsd Htd Hkeys) as (r & h' & Hrun & Hat).
  eexists r, h', _. split_and!; [done | done | | | |].
  - unfold dict_keys. rewrite map_map. simpl. rewrite map_id.
    apply NoDup_first_seen.
  - apply split_by_genre_placed.
  - by apply split_by_genre_concat.
  - by apply split_by_genre_total.
Qed.

Lemma split_by_genre_keeps_every_score_witness :
  exists (r : loc) (h' : heap) (v : dict (dict float64)),
    split_by_genre 0 1 rock_rock_jazz = (Ok r, h') /\
    genre_scores_at h' r v /\
    NoDup (dict_keys v) /\
    (forall g m k x, (g, m) ∈ v -> (k, x) ∈ m ->
       genre_of [("t1", a_track "rock" 120); ("t2", a_track "rock" 90);
                 ("t3", a_track "jazz" 100)] k = Some g) /\
    concat (map snd v) ≡ₚ
      [("t1", Finite (1 # 2)); ("t2", Finite (4 # 5)); ("t3", Finite 1)] /\
    total_scores v = 3.
Proof.
  apply (split_by_genre_keeps_every_score rock_rock_jazz 0 1 _ _ eq_refl eq_refl).
  - by apply (bool_decide_unpack (NoDup ["t1"; "t2"; "t3"])).
  - by apply (bool_decide_unpack (NoDup ["t1"; "t2"; "t3"])).
  - done.
Defined.

(** ** The pipeline: evaluate, then aggregate *)

(** What [evaluate_estimated_beats] leaves in the store when every track is
    scored. *)
Lemma evaluate_estimated_beats_run
    (f_measure : list float64 -> list float64 -> result float64)
    (h : heap) (data est : loc) (td : dict Track.t) (ed : dict (list float64)) :
  h !! data = Some (DictTrack td) ->
  h !! est = Some (DictArray ed) ->
  dict_wf td ->
  (forall k track, (k, track) ∈ td ->
     exists e x, dict_get ed k = Some e /\
                 f_measure (times (Track.beats track)) e = Ok x) ->
  exists (r : loc) (ext : heap) (v : dict float64),
    evaluate_estimated_beats f_measure data est h = (Ok r, h ++ ext) /\
    (h ++ ext) !! r = Some (DictFloat v) /\
    Forall2 (scored f_measure ed) td v.
Proof.
  intros Hd He Hwf Hok.
  destruct (evaluate_estimated_beats_refines f_measure h data est td ed Hd He)
    as (ext & res & Hrun & Hres).
  destruct (evaluate_fold_ok f_measure td td ed []) as (v & Hfold & Hall);
    [by intros; apply dict_get_wf | done | by intros; apply not_elem_of_nil
    | done |].
  rewrite Hfold in Hres. destruct res as [r|e]; [|done].
  destruct Hres as (v' & [= <-] & Hr). by exists r, ext, v.
Qed.

Lemma scored_keys
    (f_measure : list float64 -> list float64 -> result float64)
    (ed : dict (list float64)) (td : dict Track.t) (v : dict float64) :
  Forall2 (scored f_measure ed) td v -> dict_keys v = dict_keys td.
Proof.
  induction 1 as [|e x td v [Hk _] _ IH]; [done|]. simpl. by rewrite Hk, IH.
Qed.

(** X12. The scores [evaluate_estimated_beats] returns can always be split
    by genre against the tracks they were computed from: when every track is
    scored, evaluating and then calling [split_by_genre] on the result and
    the same tracks raises no KeyError, yields the genres of the tracks in
    first-seen order, and places every track in exactly one genre, its own:
    every entry of a sub-mapping belongs to a track of that genre, and the
    identifiers of all sub-mappings together are the identifiers of the
    tracks, each one once. *)
Theorem evaluate_then_split_by_genre
    (f_measure : list float64 -> list float64 -> result float64)
    (h : heap) (data est : loc) (td : dict Track.t) (ed : dict (list float64)) :
  h !! data = Some (DictTrack td) ->
  h !! est = Some (DictArray ed) ->
  dict_wf td ->
  (forall k track, (k, track) ∈ td ->
     exists e x, dict_get ed k = Some e /\
                 f_measure (times (Track.beats track)) e = Ok x) ->
  exists (r : loc) (h' : heap) (v : dict (dict float64)),
    (scores <- evaluate_estimated_beats f_measure data est ;;
     split_by_genre scores data) h = (Ok r, h') /\
    genre_scores_at h' r v /\
    dict_keys v = first_seen (map (fun e => Track.genre e.2) td) /\
    (forall g m k x, (g, m) ∈ v -> (k, x) ∈ m -> genre_of td k = Some g) /\
    dict_keys (concat (map snd v)) ≡ₚ dict_keys td /\
    total_scores v = length td.
Proof.
  intros Hd He Hwf Hok.
  destruct (evaluate_estimated_beats_run f_measure h data est td ed Hd He Hwf Hok)
    as (scores & ext & sd & Hrun & Hscores & Hall).
  pose proof (scored_keys _ _ _ _ Hall) as Hkeys.
  destruct (split_by_genre_run (h ++ ext) scores data sd td) as (r & h' & Hsplit & Hat);
    [done | by apply lookup_old | by unfold dict_wf; rewrite Hkeys | done
    | by rewrite Hkeys |].
  eexists r, h', _. unfold bind. rewrite Hrun. split_and!; [done | done | | | |].
  - unfold dict_keys. rewrite map_map. simpl. apply map_id.
  - apply split_by_genre_placed.
  - rewrite <- Hkeys. unfold dict_keys.
    change (map fst ?l) with (fst <$> l).
    apply fmap_Permutation, split_by_genre_concat. by rewrite Hkeys.
  - rewrite split_by_genre_total by (by rewrite Hkeys).
    symmetry. by eapply Forall2_length.
Qed.

Lemma evaluate_then_split_by_genre_witness :
  exists (r : loc) (h' : heap) (v : dict (dict float64)),
    (scores <- evaluate_estimated_beats (fun _ _ => Ok (Finite 1)) 0 1 ;;
     split_by_genre scores 0) with_estimates = (Ok r, h') /\
    genre_scores_at h' r v /\
    dict_keys v = ["rock"; "jazz"] /\
    (forall g m k x, (g, m) ∈ v -> (k, x) ∈ m ->
       genre_of [("t1", a_track "rock" 120); ("t2", a_track "rock" 90);
                 ("t3", a_track "jazz" 100)] k = Some g) /\
    dict_keys (concat (map snd v)) ≡ₚ ["t1"; "t2"; "t3"] /\
    total_scores v = 3.
Proof.
  apply (evaluate_then_split_by_genre (fun _ _ => Ok (Finite 1))
           with_estimates 0 1 _ _ eq_refl eq_refl).
  - by apply (bool_decide_unpack (NoDup ["t1"; "t2"; "t3"])).
  - assert (Forall (fun e : string * Track.t =>
              exists (est : list float64) (x : float64),
                dict_get [("t1", [Finite 1]); ("t2", []); ("t3", [Finite 2]);
                          ("t4", [Finite 3])] e.1 = Some est /\
                Ok (Finite 1) = Ok x)
              [("t1", a_track "rock" 120); ("t2", a_track "rock" 90);
               ("t3", a_track "jazz" 100)]) as Hall.
    { repeat constructor; by eexists _, _. }
    intros k track Hin. by apply (proj1 (Forall_forall _ _) Hall (k, track)).
Defined.

Lemma aligned_with_tracks
    (f_measure : list float64 -> list float64 -> result float64)
    (ed : dict (list float64)) (td es : dict Track.t) (sd : dict float64)
    (ts : list float64) :
  (forall k track, (k, track) ∈ es -> dict_get td k = Some track) ->
  Forall2 (scored f_measure ed) es sd ->
  Forall2 (fun e x => exists track,
             dict_get td e.1 = Some track /\ x = Track.tempo track) sd ts ->
  ts = map (fun e => Track.tempo e.2) es /\
  Forall2 (fun e x => exists estimated,
             dict_get ed e.1 = Some estimated /\
             f_measure (times (Track.beats e.2)) estimated = Ok x) es (map snd sd).
Proof.
  intros Hget Hall. revert ts.
  induction Hall as [|[k track] [k' x] es sd [Hk Hx] _ IH]; intros ts Hts.
  - apply Forall2_nil_inv_l in Hts as ->. split; [done | constructor].
  - apply Forall2_cons_inv_l in Hts as (t0 & ts' & (track' & Ht' & ->) & Hts & ->).
    simpl in *. subst k'.
    rewrite (Hget k track) in Ht' by apply list_elem_of_here.
    injection Ht' as <-.
    destruct (IH (fun k0 track0 Hin => Hget k0 track0 (list_elem_of_further _ _ _ Hin))
                ts' Hts) as [-> Hrest].
    split; [done | by constructor].
Qed.

(** X13. The scores [evaluate_estimated_beats] returns can always be paired
    with tempos against the tracks they were computed from: when every track
    is scored, evaluating and then calling [get_tempo_vs_performance] raises
    no KeyError and returns arrays aligned with the tracks dictionary,
    position [i] holding the tempo of the [i]-th track and its F-measure. *)
Theorem evaluate_then_get_tempo_vs_performance
    (f_measure : list float64 -> list float64 -> result float64)
    (h : heap) (data est : loc) (td : dict Track.t) (ed : dict (list float64)) :
  h !! data = Some (DictTrack td) ->
  h !! est = Some (DictArray ed) ->
  dict_wf td ->
  (forall k track, (k, track) ∈ td ->
     exists e x, dict_get ed k = Some e /\
                 f_measure (times (Track.beats track)) e = Ok x) ->
  exists (tempo scores : list float64) (h' : heap),
    (scores <- evaluate_estimated_beats f_measure data est ;;
     get_tempo_vs_performance scores data) h = (Ok (tempo, scores), h') /\
    tempo = map (fun e => Track.tempo e.2) td /\
    Forall2 (fun e x => exists estimated,
               dict_get ed e.1 = Some estimated /\
               f_measure (times (Track.beats e.2)) estimated = Ok x) td scores.
Proof.
  intros Hd He Hwf Hok.
  destruct (evaluate_estimated_beats_run f_measure h data est td ed Hd He Hwf Hok)
    as (r & ext & sd & Hrun & Hscores & Hall).
  pose proof (scored_keys _ _ _ _ Hall) as Hkeys.
  assert (dict_wf sd) as Hsd by (by unfold dict_wf; rewrite Hkeys).
  destruct (get_tempo_vs_performance_refines (h ++ ext) r data sd td)
    as [ext' Htempo]; [done | by apply lookup_old |].
  destruct (tempo_fold sd td sd [] []) as (ts & Hfold & Hts);
    [by intros; apply dict_get_wf | by rewrite Hkeys |].
  unfold get_tempo_vs_performance_value in Htempo. rewrite Hfold in Htempo.
  simpl in Htempo.
  destruct (aligned_with_tracks f_measure ed td td sd ts) as [Hts' Hss];
    [by intros; apply dict_get_wf | done | done |].
  exists ts, (map snd sd), ((h ++ ext) ++ ext'). unfold bind. rewrite Hrun.
  by split_and!.
Qed.

Lemma evaluate_then_get_tempo_vs_performance_witness :
  exists (tempo scores : list float64) (h' : heap),
    (scores <- evaluate_estimated_beats (fun _ _ => Ok (Finite 1)) 0 1 ;;
     get_tempo_vs_performance scores 0) with_estimates
      = (Ok (tempo, scores), h') /\
    tempo = [Finite 120; Finite 90; Finite 100] /\
    Forall2 (fun (e : string * Track.t) (x : float64) =>
               exists estimated : list float64,
                 dict_get [("t1", [Finite 1]); ("t2", []); ("t3", [Finite 2]);
                           ("t4", [Finite 3])] e.1 = Some estimated /\
                 Ok (Finite 1) = Ok x)
      [("t1", a_track "rock" 120); ("t2", a_track "rock" 90);
       ("t3", a_track "jazz" 100)] scores.
Proof.
  apply (evaluate_then_get_tempo_vs_performance (fun _ _ => Ok (Finite 1))
           with_estimates 0 1 _ _ eq_refl eq_refl).
  - by apply (bool_decide_unpack (NoDup ["t1"; "t2"; "t3"])).
  - assert (Forall (fun e : string * Track.t =>
              exists (est : list float64) (x : float64),
                dict_get [("t1", [Finite 1]); ("t2", []); ("t3", [Finite 2]);
                          ("t4", [Finite 3])] e.1 = Some est /\
                Ok (Finite 1) = Ok x)
              [("t1", a_track "rock" 120); ("t2", a_track "rock" 90);
               ("t3", a_track "jazz" 100)]) as Hall.
    { repeat constructor; by eexists _, _. }
    intros k track Hin. by apply (proj1 (Forall_forall _ _) Hall (k, track)).
Defined.

(** ** The objects [split_by_genre] returns *)

Lemma dict_set_values_NoDup {V} (d : dict V) (k : string) (v : V) :
  NoDup (map snd d) -> v ∉ map snd d -> NoDup (map snd (dict_set d k v)).
Proof.
  induction d as [|[k' v'] d IH]; simpl; intros Hnd Hv.
  - apply NoDup_singleton.
  - apply NoDup_cons in Hnd as [Hv' Hnd]. apply not_elem_of_cons in Hv as [Hne Hv].
    destruct (String.eqb k' k); simpl.
    + by apply NoDup_cons.
    + apply NoDup_cons. split; [|by apply IH].
      clear IH Hnd. induction d as [|[k2 v2] d IH]; simpl.
      * by apply not_elem_of_cons.
      * simpl in Hv', Hv.
        apply not_elem_of_cons in Hv' as [? ?]. apply not_elem_of_cons in Hv as [? ?].
        destruct (String.eqb k2 k); simpl; apply not_elem_of_cons; split; auto.
Qed.

Lemma dict_set_values_bound {V} (P : V -> Prop) (d : dict V) (k : string) (v : V) :
  Forall (fun e => P e.2) d -> P v -> Forall (fun e => P e.2) (dict_set d k v).
Proof.
  intros Hall Hv. induction Hall as [|[k' v'] d Hv' Hd IH]; simpl.
  - by repeat constructor.
  - destruct (String.eqb k' k); by constructor.
Qed.

(** Second loop again, keeping track of the references it stores: each is
    one of the score dictionaries allocated after the genres list, and no
    two are the same. *)
Lemma genre_scores_loop_refs (h : heap) (s t : loc) (sd : dict float64)
    (td : dict Track.t) (genres gl : list string)
    (D : dict loc) (subs : list (dict float64)) :
  h !! s = Some (box sd) -> h !! t = Some (box td) ->
  NoDup (map snd D) ->
  Forall (fun e => length h + 2 <= e.2 < length h + 2 + length subs) D ->
  match
    for_each gl (fun genre =>
      genre_tracks <- new_dict float64 ;;
      track_ids <- keys float64 s ;;
      for_each track_ids (fun track_id =>
        track <- getitem (V := Track.t) t track_id ;;
        if String.eqb genre (Track.genre track) then
          score <- getitem (V := float64) s track_id ;;
          setitem genre_tracks track_id score
        else ret tt) ;;
      setitem (length h) genre genre_tracks)
      (h ++ DictDict D :: ListStr genres :: map DictFloat subs)
  with
  | (Ok _, h') => exists D' subs',
      h' = h ++ DictDict D' :: ListStr genres :: map DictFloat subs' /\
      NoDup (map snd D') /\
      Forall (fun e => length h + 2 <= e.2 < length h + 2 + length subs') D'
  | (Raise e, h') => True
  end.
Proof.
  intros Hs Ht Hnd Hall.
  pose proof (for_each_fold (S := unit)
    (fun _ hh => exists D subs,
       hh = h ++ DictDict D :: ListStr genres :: map DictFloat subs /\
       NoDup (map snd D) /\
       Forall (fun e => length h + 2 <= e.2 < length h + 2 + length subs) D)
    (fun _ => True)
    (fun _ genre =>
       match foldM (genre_tracks_step sd td genre) (dict_keys sd) [] with
       | Ok _ => Ok tt
       | Raise e => Raise e
       end)) as Hloop.
  match goal with |- context [for_each gl ?b] => specialize (Hloop b) end.
  lapply Hloop; clear Hloop.
  - intros Hloop.
    specialize (Hloop gl tt _ (ex_intro _ D (ex_intro _ subs (conj eq_refl (conj Hnd Hall))))).
    destruct (for_each gl _ _) as [[[]|e] h1]; [|done].
    destruct Hloop as (_ & _ & D' & subs' & -> & Hnd' & Hall'). by eauto.
  - clear D subs Hnd Hall. intros [] g hh (D & subs & -> & Hnd & Hall).
    unfold bind at 1, new_dict, new.
    set (ext := DictDict D :: ListStr genres :: map DictFloat subs).
    change (box []) with (DictFloat []).
    unfold bind at 1.
    rewrite (keys_at s sd) by (rewrite <- app_assoc; by apply lookup_old).
    unfold bind at 1.
    pose proof (genre_tracks_loop h ext s t sd td g (dict_keys sd) [] Hs Ht) as Hin.
    destruct (for_each (dict_keys sd) _ _) as [[[]|e] h1]; [|by destruct Hin as [-> ?]].
    destruct Hin as (gt & -> & ->).
    assert ((h ++ ext) ++ [DictFloat gt] =
            h ++ DictDict D :: ListStr genres :: map DictFloat (subs ++ [gt])) as ->.
    { unfold ext. by rewrite map_app, <- app_assoc. }
    rewrite (setitem_at _ _ _ D) by apply lookup_slot0.
    rewrite insert_slot0.
    assert (length (h ++ ext) = length h + 2 + length subs) as Hlen.
    { unfold ext. rewrite length_app. simpl. rewrite length_map. lia. }
    exists tt. split; [done|]. eexists _, _. split; [done|]. split.
    + apply dict_set_values_NoDup; [done|]. rewrite Hlen.
      intros (e & He & Hin)%list_elem_of_fmap.
      apply (proj1 (Forall_forall _ _) Hall) in Hin. simpl in Hin. unfold loc in *. lia.
    + rewrite length_app. simpl.
      apply (dict_set_values_bound
               (fun l => length h + 2 <= l < length h + 2 + (length subs + 1))).
      * eapply Forall_impl; [exact Hall|]. simpl. intros e He. lia.
      * lia.
Qed.

Lemma split_by_genre_refs (h : heap) (s t : loc)
    (sd : dict float64) (td : dict Track.t) :
  h !! s = Some (box sd) -> h !! t = Some (box td) ->
  exists ext res,
    split_by_genre s t h = (res, h ++ ext) /\
    match res with
    | Ok r => exists (D : dict loc) (genres : list string) (subs : list (dict float64)),
        r = length h /\
        ext = DictDict D :: ListStr genres :: map DictFloat subs /\
        NoDup (map snd D) /\
        Forall (fun e => length h + 2 <= e.2 < length h + 2 + length subs) D
    | Raise e => True
    end.
Proof.
  intros Hs Ht. unfold split_by_genre.
  unfold new_dict, new_list, new, bind at 1 2.
  rewrite <- app_assoc, length_app. simpl.
  replace (length h + 1) with (S (length h)) by lia.
  unfold bind at 1. rewrite (keys_at t td) by (by apply lookup_old).
  unfold bind at 1.
  pose proof (genres_loop h t td (DictDict []) (dict_keys td) [] Ht) as H1.
  destruct (for_each (dict_keys td) _ _) as [[[]|e] h1].
  2:{ destruct H1 as (_ & ext & ->). by exists ext, (Raise e). }
  destruct H1 as (genres & _ & ->).
  unfold bind at 1, items. rewrite (read_at _ genres) by apply lookup_slot1.
  unfold bind at 1.
  pose proof (genre_scores_loop_refs h s t sd td genres genres [] [] Hs Ht
                (NoDup_nil_2) (Forall_nil_2 _)) as H2.
  simpl in H2.
  pose proof (genre_scores_loop h s t sd td genres genres [] [] [] Hs Ht
                (Forall2_nil_2 _ _ _)) as H3.
  simpl in H3.
  destruct (for_each genres _ _) as [[[]|e] h2].
  2:{ destruct H3 as (_ & ext & ->). by exists ext, (Raise e). }
  destruct H2 as (D & subs & -> & Hnd & Hall).
  eexists _, (Ok _). split; [done|]. by exists D, genres, subs.
Qed.

(** X14. Every dictionary [split_by_genre] returns is a new object: the
    result and the sub-mapping of each genre were not in use before the call,
    so none of them is the scores or the tracks dictionary, and no two
    genres share a sub-mapping. *)
Theorem split_by_genre_returns_new_objects (h h' : heap) (s t r : loc)
    (sd : dict float64) (td : dict Track.t) :
  h !! s = Some (DictFloat sd) ->
  h !! t = Some (DictTrack td) ->
  split_by_genre s t h = (Ok r, h') ->
  exists D : dict loc,
    h' !! r = Some (DictDict D) /\
    h !! r = None /\
    NoDup (map snd D) /\
    forall g l, (g, l) ∈ D ->
      h !! l = None /\ l <> r /\ l <> s /\ l <> t /\
      exists m, h' !! l = Some (DictFloat m).
Proof.
  intros Hs Ht Hrun.
  destruct (split_by_genre_refs h s t sd td Hs Ht) as (ext & res & Hrun' & Hres).
  rewrite Hrun in Hrun'. injection Hrun' as <- ->.
  destruct Hres as (D & genres & subs & -> & -> & Hnd & Hall).
  apply lookup_lt_Some in Hs, Ht.
  exists D. split_and!; [apply lookup_slot0 | by apply lookup_ge_None | done |].
  intros g l Hin.
  apply (proj1 (Forall_forall _ _) Hall) in Hin. simpl in Hin.
  split_and!; [apply lookup_ge_None; lia | lia | lia | lia |].
  destruct (lookup_lt_is_Some_2 subs (l - (length h + 2))) as [m Hm]; [lia|].
  exists m. replace l with (length h + (2 + (l - (length h + 2)))) by lia.
  rewrite lookup_fresh. simpl.
  change (map DictFloat subs) with (DictFloat <$> subs).
  by rewrite list_lookup_fmap, Hm.
Qed.

Lemma split_by_genre_returns_new_objects_witness :
  exists D : dict loc,
    (split_by_genre 0 1 rock_rock_jazz).2 !! (2 : nat) = Some (DictDict D) /\
    rock_rock_jazz !! (2 : nat) = None /\
    NoDup (map snd D) /\
    forall g l, (g, l) ∈ D ->
      rock_rock_jazz !! l = None /\ l <> 2 /\ l <> 0 /\ l <> 1 /\
      exists m, (split_by_genre 0 1 rock_rock_jazz).2 !! l = Some (DictFloat m).
Proof.
  exact (split_by_genre_returns_new_objects rock_rock_jazz
           (split_by_genre 0 1 rock_rock_jazz).2 0 1 2 _ _
           eq_refl eq_refl eq_refl).
Defined.

(** ** How many beats *)

Lemma np_where_from_length (i : nat) (mask : list bool) :
  length (np_where_from i mask) = length (filter (fun b => b = true) mask).
Proof.
  revert i. induction mask as [|b mask IH]; intros i; [done|].
  simpl. destruct b.
  - rewrite filter_cons_True by done. simpl. by rewrite IH.
  - by rewrite filter_cons_False by done.
Qed.

(** X15. [estimate_beats_spectral_flux] returns one beat per local maximum
    and nothing else: the number of beat times is the number of true entries
    of the mask, at most the length of the mask, and a mask with no maximum
    gives an empty array of beat times rather than an error. *)
Theorem estimate_beats_spectral_flux_count
    (librosa_load : string -> result (list float64 * Z))
    (onset_strength : list float64 -> Z -> Z -> result (list float64))
    (plp : list float64 -> Z -> Z -> list float64 -> result (list float64))
    (localmax : list float64 -> list bool)
    (audio_path : string) (hop_length : option Z) (h : heap)
    (y : list float64) (sr : Z) (activation pulse : list float64) :
  librosa_load audio_path = Ok (y, sr) ->
  onset_strength y sr (default 512%Z hop_length) = Ok activation ->
  plp y sr (default 512%Z hop_length) activation = Ok pulse ->
  exists beat_times : list float64,
    estimate_beats_spectral_flux librosa_load onset_strength plp localmax
      audio_path hop_length h = (Ok (beat_times, activation), h) /\
    length beat_times = length (filter (fun b => b = true) (localmax pulse)) /\
    length beat_times <= length (localmax pulse) /\
    (Forall (fun b => b = false) (localmax pulse) -> beat_times = []).
Proof.
  intros Hload Honset Hplp.
  unfold estimate_beats_spectral_flux, bind, lift, ret.
  rewrite Hload, Honset, Hplp. simpl.
  eexists. split; [done|].
  assert (length (frames_to_time (np_where (localmax pulse)) sr
                    (default 512%Z hop_length)) =
          length (filter (fun b => b = true) (localmax pulse))) as Hlen.
  { rewrite frames_to_time_length. apply np_where_from_length. }
  split_and!; [done | rewrite Hlen; apply length_filter |].
  intros Hnone. apply length_zero_iff_nil. rewrite Hlen.
  rewrite filter_none; [done|].
  intros b Hb Hb'. apply (proj1 (Forall_forall _ _) Hnone) in Hb. congruence.
Qed.

Lemma estimate_beats_spectral_flux_count_witness :
  exists beat_times : list float64,
    estimate_beats_spectral_flux
      (fun _ => Ok ([Finite 0; Finite 1; Finite 0; Finite 1], 2%Z))
      (fun _ _ _ => Ok [Finite 0; Finite 1; Finite 0])
      (fun _ _ _ envelope => Ok envelope)
      (fun _ => [false; true; false])
      "track.wav" (Some 2%Z) []
    = (Ok (beat_times, [Finite 0; Finite 1; Finite 0]), []) /\
    length beat_times = 1.
Proof.
  destruct (estimate_beats_spectral_flux_count
    (fun _ => Ok ([Finite 0; Finite 1; Finite 0; Finite 1], 2%Z))
    (fun _ _ _ => Ok [Finite 0; Finite 1; Finite 0])
    (fun _ _ _ envelope => Ok envelope)
    (fun _ => [false; true; false])
    "track.wav" (Some 2%Z) [] _ _ _ _ eq_refl eq_refl eq_refl)
    as (beat_times & Hrun & Hlen & _).
  by exists beat_times.
Defined.

(** ** Tempo against performance, genre by genre *)

Lemma scores_of_genre_wf (sd : dict float64) (td : dict Track.t) (g : string) :
  dict_wf sd -> dict_wf (scores_of_genre sd td g).
Proof.
  unfold dict_wf, dict_keys, scores_of_genre. intros Hwf.
  eapply sublist_NoDup; [exact Hwf|].
  change (map fst ?l) with (fst <$> l).
  apply fmap_sublist, sublist_filter.
Qed.

(** X16. Each sub-mapping [split_by_genre] returns can be passed to
    [get_tempo_vs_performance] with the same tracks dictionary: the call
    raises no KeyError and returns the scores of that genre, in order, with
    as many tempos. *)
Theorem split_by_genre_then_get_tempo_vs_performance (h : heap) (s t : loc)
    (sd : dict float64) (td : dict Track.t) :
  h !! s = Some (DictFloat sd) ->
  h !! t = Some (DictTrack td) ->
  dict_wf sd -> dict_wf td ->
  (forall k, k ∈ dict_keys sd -> k ∈ dict_keys td) ->
  exists (r : loc) (h' : heap) (D : dict loc),
    split_by_genre s t h = (Ok r, h') /\
    h' !! r = Some (DictDict D) /\
    forall g l, (g, l) ∈ D ->
      exists (tempo scores : list float64) (h'' : heap),
        get_tempo_vs_performance l t h' = (Ok (tempo, scores), h'') /\
        scores = map snd (scores_of_genre sd td g) /\
        length tempo = length scores.
Proof.
  intros Hs Ht Hsd Htd Hkeys.
  destruct (split_by_genre_refines h s t sd td Hs Ht) as (ext & res & Hrun & Hres).
  rewrite (split_by_genre_value_ok sd td Hsd Htd Hkeys) in Hres.
  destruct res as [r|e]; [|done].
  destruct Hres as (v & [= <-] & D & Hr & Hall).
  exists r, (h ++ ext), D. split_and!; [done | done |].
  intros g l (i & Hi)%list_elem_of_lookup.
  destruct (Forall2_lookup_l _ _ _ _ _ Hall Hi) as ([g' m] & Hv & Hg & Hl).
  simpl in Hg, Hl. subst g'.
  change (map ?f ?l) with (f <$> l) in Hv.
  rewrite list_lookup_fmap in Hv.
  destruct (first_seen _ !! i) as [g'|]; simpl in Hv; [|done].
  injection Hv as -> <-.
  destruct (get_tempo_vs_performance_refines (h ++ ext) l t
              (scores_of_genre sd td g) td Hl) as [ext' Htempo];
    [by apply lookup_old|].
  destruct (tempo_fold (scores_of_genre sd td g) td (scores_of_genre sd td g) [] [])
    as (ts & Hfold & Hts).
  { intros k x Hin. by apply dict_get_wf; [apply scores_of_genre_wf|]. }
  { intros k (e & -> & [_ He]%list_elem_of_filter)%list_elem_of_fmap.
    apply Hkeys. apply list_elem_of_fmap. by exists e. }
  unfold get_tempo_vs_performance_value in Htempo. rewrite Hfold in Htempo.
  simpl in Htempo. eexists ts, _, _. split_and!; [done | done |].
  rewrite length_map. symmetry. by eapply Forall2_length.
Qed.

Lemma split_by_genre_then_get_tempo_vs_performance_witness :
  exists (r : loc) (h' : heap) (D : dict loc),
    split_by_genre 0 1 rock_rock_jazz = (Ok r, h') /\
    h' !! r = Some (DictDict D) /\
    forall g l, (g, l) ∈ D ->
      exists (tempo scores : list float64) (h'' : heap),
        get_tempo_vs_performance l 1 h' = (Ok (tempo, scores), h'') /\
        scores = map snd (scores_of_genre
                   [("t1", Finite (1 # 2)); ("t2", Finite (4 # 5)); ("t3", Finite 1)]
                   [("t1", a_track "rock" 120); ("t2", a_track "rock" 90);
                    ("t3", a_track "jazz" 100)] g) /\
        length tempo = length scores.
Proof.
  apply (split_by_genre_then_get_tempo_vs_performance rock_rock_jazz 0 1 _ _
           eq_refl eq_refl).
  - by apply (bool_decide_unpack (NoDup ["t1"; "t2"; "t3"])).
  - by apply (bool_decide_unpack (NoDup ["t1"; "t2"; "t3"])).
  - done.
Defined.
